(** * euca2ools.bundle.util: descriptor fence, worker wrapper, reaper

    A shallow embedding of [src/euca2ools/bundle/util.py] (Python 2) and the
    properties of it that the specification states.

    - [Fence]       : [close_all_fds]
    - [Fingerprint] : the parsing expression of [get_cert_fingerprint]
    - [Reaper]      : [pid_exists], [check_and_waitpid], [waitpid_in_thread]
    - [Worker]      : [process_wrapper], [spawn_process]
    - [Pipe]        : [open_pipe_fileobjs]
    - [EucaCommand] : [get_environ], [get_credentials], the [--filter]
                      branch of [process_cli_args], [get_file_path] and
                      [get_relative_filename] of
                      [src/euca2ools/commands/eucacommand.py]

    Python integers are unbounded and are modelled by [Z]. *)

From stdpp Require Import base list sorting gmap strings.
From Stdlib Require Import ZArith Lia Ascii String.

Local Open Scope Z_scope.

(** ** Exceptions and results shared by the modules *)

(** The exceptions the module raises or lets through by name. *)
Inductive exn : Type :=
| ValueError (msg : string)
| OSError (errno : Z)
| OverflowError.

(** What a call ends with: a value, or a raised exception. *)
Inductive outcome (A : Type) : Type :=
| Ret (a : A)
| Raise (e : exn).
Arguments Ret {A} a.
Arguments Raise {A} e.

(** * The descriptor fence: [close_all_fds] *)
Module Fence.

(** What an element of [except_fds] can be, by the branch of the
    [if]/[elif] chain that takes it. *)
Inductive fd_like : Type :=
| FdNone                     (* [None] *)
| FdInt (n : Z)              (* [isinstance(except_fd, int)] *)
| FdFile (fileno : Z)        (* has a [fileno] attribute; the value of [fileno()] *)
| FdOther (repr : string).   (* anything else; [repr(except_fd)] *)

#[global] Instance fd_like_eq_dec : EqDecision fd_like.
Proof. solve_decision. Defined.

Definition invalid_ref_msg (repr : string) : string :=
  (repr ++ " must be an int or have a fileno method")%string.

(** Lines 37-46: the loop over [except_fds], appending to [except_filenos]. *)
Fixpoint collect_filenos (except_fds : list fd_like) (except_filenos : list Z)
  : outcome (list Z) :=
  match except_fds with
  | [] => Ret except_filenos
  | FdNone :: rest => collect_filenos rest except_filenos
  | FdInt n :: rest => collect_filenos rest (except_filenos ++ [n])
  | FdFile n :: rest => collect_filenos rest (except_filenos ++ [n])
  | FdOther r :: _ => Raise (ValueError (invalid_ref_msg r))
  end.

(** Lines 35-46: [except_filenos] once the loop is over. *)
Definition except_filenos (except_fds : option (list fd_like)) : outcome (list Z) :=
  match except_fds with
  | None => Ret [1; 2]
  | Some fds => collect_filenos fds [1; 2]
  end.

(** The upper end of the last range (line 54). *)
Definition bound : Z := 1024.

(** Lines 51-53: one turn of the loop over [sorted(except_filenos)]; the
    state is [(fileno_ranges, next_range_min)]. *)
Definition range_step (st : list (Z * Z) * Z) (except_fileno : Z)
  : list (Z * Z) * Z :=
  let '(fileno_ranges, next_range_min) := st in
  (if decide (except_fileno > next_range_min)
   then fileno_ranges ++ [(next_range_min, except_fileno - 1)]
   else fileno_ranges,
   Z.max next_range_min (except_fileno + 1)).

Definition range_loop (st : list (Z * Z) * Z) (sorted_filenos : list Z)
  : list (Z * Z) * Z :=
  foldl range_step st sorted_filenos.

(** Lines 48-54: the list [fileno_ranges]. *)
Definition fileno_ranges (except_filenos : list Z) : list (Z * Z) :=
  let '(ranges, next_range_min) :=
    range_loop ([], 0) (merge_sort Z.le except_filenos) in
  ranges ++ [(next_range_min, bound)].

(** The descriptor table, as the set of open descriptors. *)
Abbreviation fd_table := (gset Z).

(** The bounds of a C [int]. *)
Definition INT_MIN : Z := -2147483648.
Definition INT_MAX : Z := 2147483647.

Definition fits_int (n : Z) : Prop := INT_MIN ≤ n ≤ INT_MAX.

(** A pair that [os.closerange] takes as it is. *)
Definition fits_range (r : Z * Z) : Prop := fits_int r.1 ∧ fits_int r.2.

(** The table without the descriptors from [fd_low] (inclusive) to
    [fd_high] (exclusive). *)
Definition without_range (fd_low fd_high : Z) (open : fd_table) : fd_table :=
  filter (λ fd, ¬ (fd_low ≤ fd < fd_high)) open.

(** [os.closerange(fd_low, fd_high)] of the Python library: both
    arguments are converted to C [int]s, with an [OverflowError] for one
    that does not fit; then every descriptor from [fd_low] (inclusive) to
    [fd_high] (exclusive) is closed, and errors are ignored, so a
    descriptor that is not open is skipped. *)
Definition closerange (fd_low fd_high : Z) (open : fd_table)
  : outcome unit * fd_table :=
  if decide (fits_int fd_low ∧ fits_int fd_high)
  then (Ret tt, without_range fd_low fd_high open)
  else (Raise OverflowError, open).

(** Lines 56-57: the loop stops at the first call that raises. *)
Fixpoint close_each (ranges : list (Z * Z)) (open : fd_table)
  : outcome unit * fd_table :=
  match ranges with
  | [] => (Ret tt, open)
  | fileno_range :: rest =>
      match closerange fileno_range.1 fileno_range.2 open with
      | (Ret _, open') => close_each rest open'
      | (Raise e, open') => (Raise e, open')
      end
  end.

(** The descriptor table when lines 56-57 are over, however they end. *)
Definition close_ranges (ranges : list (Z * Z)) (open : fd_table) : fd_table :=
  (close_each ranges open).2.

(** The ranges that the loop of lines 56-57 gets to close: those before
    the first one that [os.closerange] does not take. *)
Fixpoint reached (ranges : list (Z * Z)) : list (Z * Z) :=
  match ranges with
  | [] => []
  | r :: rest => if decide (fits_range r) then r :: reached rest else []
  end.

(** [close_all_fds(except_fds)]: the result and the descriptor table after
    the call. *)
Definition close_all_fds (except_fds : option (list fd_like)) (open : fd_table)
  : outcome unit * fd_table :=
  match except_filenos except_fds with
  | Raise e => (Raise e, open)
  | Ret filenos => close_each (fileno_ranges filenos) open
  end.

(** *** The range list read as closed intervals *)

Definition in_range (x : Z) (r : Z * Z) : Prop := r.1 ≤ x ≤ r.2.

Definition in_ranges (x : Z) (ranges : list (Z * Z)) : Prop :=
  Exists (in_range x) ranges.

(** Every range ends before the ones after it start. *)
Definition ascending (ranges : list (Z * Z)) : Prop :=
  StronglySorted (λ r1 r2 : Z * Z, r1.2 < r2.1) ranges.

Definition pairwise_disjoint (ranges : list (Z * Z)) : Prop :=
  ∀ (i j : nat) r1 r2 x,
    ranges !! i = Some r1 → ranges !! j = Some r2 → i ≠ j →
    ¬ (in_range x r1 ∧ in_range x r2).

(** The invariant the specification gives for the range list: ascending,
    pairwise disjoint, and with the preserved descriptors exactly
    [[0, bound]]. *)
Definition partitions_bound (filenos : list Z) (ranges : list (Z * Z)) : Prop :=
  ascending ranges ∧ pairwise_disjoint ranges ∧
  ∀ x, in_ranges x ranges ∨ x ∈ filenos ↔ 0 ≤ x ≤ bound.

(** The descriptors a fence that closes every range as a closed interval
    leaves open: the specification's reading of lines 56-57. *)
Definition fenced_as_specified (filenos : list Z) (open : fd_table) : fd_table :=
  filter (λ fd, ¬ (0 ≤ fd ≤ bound) ∨ fd ∈ filenos) open.

(** [next_range_min] when the loop of lines 50-53 is over. *)
Definition last_range_min (except_filenos : list Z) : Z :=
  (range_loop ([], 0) (merge_sort Z.le except_filenos)).2.


Definition is_other (fd : fd_like) : Prop :=
  match fd with FdOther _ => True | _ => False end.

#[global] Instance is_other_dec fd : Decision (is_other fd).
Proof. destruct fd; simpl; apply _. Defined.

End Fence.

(** * The fingerprint parser of [get_cert_fingerprint] *)
Module Fingerprint.

(** The characters Python 2's [str.strip()] removes: space, tab, newline,
    vertical tab, form feed and carriage return. *)
Definition is_space (c : ascii) : bool :=
  match c with
  | " " | "009" | "010" | "011" | "012" | "013" => true
  | _ => false
  end%char.

Definition is_empty (s : string) : bool :=
  match s with EmptyString => true | String _ _ => false end.

Fixpoint lstrip (s : string) : string :=
  match s with
  | EmptyString => EmptyString
  | String c s' => if is_space c then lstrip s' else s
  end.

Fixpoint rstrip (s : string) : string :=
  match s with
  | EmptyString => EmptyString
  | String c s' =>
      let r := rstrip s' in
      if is_empty r && is_space c then EmptyString else String c r
  end.

(** [s.strip()] *)
Definition strip (s : string) : string := rstrip (lstrip s).

(** The split of [s] at the last [sep], if [sep] occurs in [s]. *)
Fixpoint split_at_last (sep : ascii) (s : string) : option (string * string) :=
  match s with
  | EmptyString => None
  | String c s' =>
      match split_at_last sep s' with
      | Some (before, after) => Some (String c before, after)
      | None => if Ascii.eqb c sep then Some (EmptyString, s') else None
      end
  end.

(** [s.rsplit(sep, 1)] for a one-character [sep]. *)
Definition rsplit1 (sep : ascii) (s : string) : list string :=
  match split_at_last sep s with
  | Some (before, after) => [before; after]
  | None => [s]
  end.

(** [pieces[-1]] on a list that [rsplit] returned. *)
Definition last_piece (pieces : list string) : string :=
  List.last pieces EmptyString.

(** [s.replace(c, '')] for a one-character [c]. *)
Fixpoint remove_char (c : ascii) (s : string) : string :=
  match s with
  | EmptyString => EmptyString
  | String d s' =>
      if Ascii.eqb d c then remove_char c s' else String d (remove_char c s')
  end.

Definition lower_char (c : ascii) : ascii :=
  let n := N_of_ascii c in
  if ((65 <=? n) && (n <=? 90))%N then ascii_of_N (n + 32) else c.

(** [s.lower()] *)
Fixpoint lower (s : string) : string :=
  match s with
  | EmptyString => EmptyString
  | String c s' => String (lower_char c) (lower s')
  end.

(** Line 65: [fingerprint.strip().rsplit('=', 1)[-1].replace(':', '').lower()] *)
Definition parse_fingerprint (fingerprint : string) : string :=
  lower (remove_char ":" (last_piece (rsplit1 "=" (strip fingerprint)))).

(** Lines 60-65. [openssl] stands for the external program: from the
    argument tuple to what it writes to its standard output. *)
Definition get_cert_fingerprint (openssl : list string → string)
    (cert_filename : string) : string :=
  let fingerprint :=
    openssl ["openssl"; "x509"; "-in"; cert_filename;
             "-fingerprint"; "-sha1"; "-noout"]%string in
  parse_fingerprint fingerprint.

(** Strings of whitespace only. *)
Fixpoint all_space (s : string) : Prop :=
  match s with
  | EmptyString => True
  | String c s' => is_space c = true ∧ all_space s'
  end.

(** Strings in which [c] does not occur. *)
Fixpoint free_of (c : ascii) (s : string) : Prop :=
  match s with
  | EmptyString => True
  | String d s' => Ascii.eqb d c = false ∧ free_of c s'
  end.

(** The output the specification calls canonical. *)
Definition canonical_output : string := "SHA1 Fingerprint=AA:BB:CC:DD".

End Fingerprint.

(** * The reaper and the liveness probe *)
Module Reaper.

(** Values of [errno] (Linux). *)
Definition EPERM : Z := 1.
Definition ESRCH : Z := 3.
Definition EINTR : Z := 4.
Definition ECHILD : Z := 10.

(** The operating system as the module calls it: [os.kill] and
    [os.waitpid], each from the system's state to a result and the state
    after the call. Nothing is assumed about what they answer. *)
Class OS (os_state : Type) : Type := {
  os_kill : Z → Z → os_state → outcome unit * os_state;
  os_waitpid : Z → Z → os_state → outcome (Z * Z) * os_state;
}.

(** [threading.Thread(target=check_and_waitpid, args=(pid, 0))] *)
Inductive thread_target : Type := CheckAndWaitpid.

Record thread : Type := {
  target : thread_target;
  args : Z * Z;
  daemon : bool;
}.

(** The state a call runs in: the system, and the threads started so far. *)
Record world (os_state : Type) : Type := {
  os : os_state;
  started : list thread;
}.
Arguments os {os_state} w.
Arguments started {os_state} w.
Arguments Build_world {os_state} os started.

Section WithOS.
Context {os_state : Type} `{!OS os_state}.

(** Calls that read and change the state and may raise. *)
Definition M (A : Type) : Type := world os_state → outcome A * world os_state.

Definition ret {A} (a : A) : M A := λ w, (Ret a, w).
Definition raise {A} (e : exn) : M A := λ w, (Raise e, w).
Definition bind {A B} (m : M A) (k : A → M B) : M B :=
  λ w, match m w with
       | (Ret a, w') => k a w'
       | (Raise e, w') => (Raise e, w')
       end.

(** [try: body / except ...:] where [handler e] is the clause that takes
    [e], if one does. *)
Definition try_except {A} (body : M A) (handler : exn → option (M A)) : M A :=
  λ w, match body w with
       | (Ret a, w') => (Ret a, w')
       | (Raise e, w') =>
           match handler e with
           | Some h => h w'
           | None => (Raise e, w')
           end
       end.

Local Notation "'do' x <- m ; k" := (bind m (λ x, k))
  (at level 10, x name, m at level 100, k at level 200).

Definition kill (pid sig : Z) : M unit :=
  λ w, let '(r, s) := os_kill pid sig (os w) in
       (r, Build_world s (started w)).

Definition waitpid (pid options : Z) : M (Z * Z) :=
  λ w, let '(r, s) := os_waitpid pid options (os w) in
       (r, Build_world s (started w)).

(** [Thread.start()] *)
Definition start (t : thread) : M unit :=
  λ w, (Ret tt, Build_world (os w) (started w ++ [t])).

(** Lines 104-114. *)
Definition pid_exists (pid : Z) : M bool :=
  try_except
    (do _ <- kill pid 0; ret true)
    (λ e, match e with
          | OSError errno =>
              Some (if decide (errno = ESRCH) then ret false
                    else raise (OSError errno))
          | _ => None
          end).

(** Lines 117-122. *)
Definition check_and_waitpid (pid status : Z) : M unit :=
  do alive <- pid_exists pid;
  if alive : bool then
    try_except
      (do _ <- waitpid pid status; ret tt)
      (λ e, match e with
            | OSError _ => Some (ret tt)
            | _ => None
            end)
  else ret tt.

(** Lines 73-81. *)
Definition waitpid_in_thread (pid : Z) : M unit :=
  do alive <- pid_exists pid;
  if alive : bool then
    let pid_thread :=
      {| target := CheckAndWaitpid; args := (pid, 0); daemon := true |} in
    start pid_thread
  else ret tt.


End WithOS.

(** The errors of a wait on a process that has already vanished. *)
Definition vanished (errno : Z) : Prop := errno = ECHILD ∨ errno = ESRCH.

(** A system with three processes, for trying the definitions: 100 is a
    child whose wait is interrupted by a signal, 200 is a child that
    another wait reaps first, 1 belongs to another user; no other PID
    exists. *)
Definition demo_kill (pid sig : Z) (s : unit) : outcome unit * unit :=
  if decide (pid = 100 ∨ pid = 200) then (Ret tt, s)
  else if decide (pid = 1) then (Raise (OSError EPERM), s)
  else (Raise (OSError ESRCH), s).

Definition demo_waitpid (pid options : Z) (s : unit) : outcome (Z * Z) * unit :=
  if decide (pid = 100) then (Raise (OSError EINTR), s)
  else (Raise (OSError ECHILD), s).

#[global] Instance demo_os : OS unit :=
  {| os_kill := demo_kill; os_waitpid := demo_waitpid |}.

Definition demo_world : world unit := Build_world tt [].

End Reaper.

(** * The worker wrapper and the launcher *)
Module Worker.

(** An exception, by the [except] clauses that match it and by what
    [str()] of it does: [str(e)] gives a string, or raises an exception of
    its own (in Python 2, a [UnicodeEncodeError] for a message that is not
    ASCII, or whatever a [__str__] method raises). *)
Inductive py_exception : Type :=
| PyException
    (keyboard_interrupt : bool)   (* [isinstance(e, KeyboardInterrupt)] *)
    (exception : bool)            (* [isinstance(e, Exception)] *)
    (str : str_result)            (* [str(e)] *)
with str_result : Type :=
| Str (s : string)                (* the call returns [s] *)
| StrRaises (e : py_exception).   (* the call raises [e] *)

Definition is_KeyboardInterrupt (e : py_exception) : bool :=
  match e with PyException keyboard_interrupt _ _ => keyboard_interrupt end.

Definition is_Exception (e : py_exception) : bool :=
  match e with PyException _ exception _ => exception end.

Definition exc_str (e : py_exception) : str_result :=
  match e with PyException _ _ str => str end.

Inductive call_result : Type :=
| Completes
| Raises (e : py_exception).

(** The unit of work: its [__name__] attribute, if it has one, by what
    [str()] of it does (a string, or an exception raised), and what
    calling the unit of work with the keyword arguments does. *)
Record callable (kwargs : Type) : Type := {
  name_attr : option str_result;
  call : kwargs → call_result;
}.
Arguments name_attr {kwargs} c.
Arguments call {kwargs} c k.

(** What the wrapper writes to [os.sys.stderr]. *)
Inductive stderr_event : Type :=
| Traceback (e : py_exception)      (* [traceback.print_exc()] *)
| PrintLine (msg : string).         (* [print >> os.sys.stderr, msg] *)

(** How the body of the wrapper is left. *)
Inductive flow : Type :=
| FallsThrough                      (* past the [try] statement *)
| ReturnStmt                        (* the [return] of line 100 *)
| Uncaught (e : py_exception).      (* no clause took the exception *)

(** How the call of the wrapper ends. *)
Inductive wrapper_end : Type :=
| OsExit (status : Z)               (* [os._exit(status)]: the process is gone *)
| Returns                           (* back in the caller *)
| Propagates (e : py_exception).    (* the exception goes to the caller *)

Definition EX_OK : Z := 0.

Definition dquote : string := String "034"%char EmptyString.

(** Line 91: [getattr(func, '__name__', 'unknown')] *)
Definition getattr_name {kwargs} (func : callable kwargs) : str_result :=
  default (Str "unknown") (name_attr func).

(** Line 98 *)
Definition error_msg (str_name str_e : string) : string :=
  ("Error in wrapped process " ++ dquote ++ str_name ++ dquote ++ ":" ++ str_e)%string.

(** Lines 92-100: the [try] statement. In the handler of line 96 the
    traceback is printed first; then [str(name)] and [str(e)] are called,
    in this order, and an exception that one of them raises leaves the
    handler before the line is printed. *)
Definition try_call {kwargs} (func : callable kwargs) (kw : kwargs)
    (name : str_result) : list stderr_event * flow :=
  match call func kw with
  | Completes => ([], FallsThrough)
  | Raises e =>
      if is_KeyboardInterrupt e then ([], FallsThrough)
      else if is_Exception e then
        match name with
        | StrRaises raised => ([Traceback e], Uncaught raised)
        | Str str_name =>
            match exc_str e with
            | StrRaises raised => ([Traceback e], Uncaught raised)
            | Str str_e =>
                ([Traceback e; PrintLine (error_msg str_name str_e)],
                 ReturnStmt)
            end
        end
      else ([], Uncaught e)
  end.

(** Lines 90-101. *)
Definition process_wrapper {kwargs} (func : callable kwargs) (kw : kwargs)
  : list stderr_event * wrapper_end :=
  let name := getattr_name func in
  let '(err, fl) := try_call func kw name in
  match fl with
  | FallsThrough => (err, OsExit EX_OK)
  | ReturnStmt => (err, Returns)
  | Uncaught e => (err, Propagates e)
  end.

(** The exit status of a child that the [multiprocessing] library runs
    [target] in: the library's bootstrap exits with 0 when the target
    returns, and with a status of its own choice, [uncaught e], when the
    target lets [e] through. *)
Definition child_exit_status (uncaught : py_exception → Z) (w : wrapper_end) : Z :=
  match w with
  | OsExit status => status
  | Returns => 0
  | Propagates e => uncaught e
  end.

(** The child process that [p.start()] creates: its PID, and what the
    wrapper writes and how it ends there. *)
Record child : Type := {
  child_pid : Z;
  child_stderr : list stderr_event;
  child_end : wrapper_end;
}.

(** Lines 84-87. [fork] is what creating the process gives: the child's
    PID, or the error of the system. *)
Definition spawn_process {kwargs} (fork : outcome Z)
    (func : callable kwargs) (kw : kwargs) : outcome child :=
  match fork with
  | Raise e => Raise e
  | Ret pid =>
      let '(err, w) := process_wrapper func kw in
      Ret {| child_pid := pid; child_stderr := err; child_end := w |}
  end.

(** Units of work for trying the definitions: one that raises an
    [Exception], one that is interrupted, one without a name that raises. *)
Definition boom : py_exception := PyException false true (Str "boom").

Definition interrupt : py_exception := PyException true false (Str "").

Definition failing_work : callable unit :=
  {| name_attr := Some (Str "bundle"); call := λ _, Raises boom |}.

Definition interrupted_work : callable unit :=
  {| name_attr := Some (Str "bundle"); call := λ _, Raises interrupt |}.

(** An [Exception] whose message [str()] cannot encode: [str(e)] raises a
    [UnicodeEncodeError], itself an [Exception]. *)
Definition encode_error : py_exception :=
  PyException false true (Str "'ascii' codec can't encode character").

Definition unprintable : py_exception :=
  PyException false true (StrRaises encode_error).

Definition unprintable_work : callable unit :=
  {| name_attr := Some (Str "bundle"); call := λ _, Raises unprintable |}.

End Worker.

(** * The pipe factory: [open_pipe_fileobjs] *)
Module Pipe.
Import Fence.



End Pipe.

(** * Methods of [EucaCommand] ([euca2ools/commands/eucacommand.py]) *)
Module EucaCommand.
Import Fingerprint.
Local Open Scope string_scope.

(** The exceptions these methods raise. *)
Inductive py_error : Type :=
| KeyError (key : string)
| ConnectionFailed.

(** How a method ends: it returns, [sys.exit] ends the program, or an
    exception leaves it. *)
Inductive ending (A : Type) : Type :=
| Done (a : A)
| SysExit (status : Z)
| Raised (e : py_error).
Arguments Done {A} a.
Arguments SysExit {A} status.
Arguments Raised {A} e.

(** [if value:] for a value that is a string or [None]. *)
Definition truthy (value : option string) : bool :=
  match value with
  | Some s => negb (is_empty s)
  | None => false
  end.

(** The argument of [display_error_and_exit]: an object with an
    [error_code] and an [error_message], or anything else, by its
    [str()]. *)
Inductive error_arg : Type :=
| Coded (error_code error_message : string)
| Plain (str : string).

(** Lines 325-331: the line printed, and the status of [sys.exit]. *)
Definition display_error_and_exit (exc : error_arg) : list string * Z :=
  (match exc with
   | Coded error_code error_message => [error_code ++ ": " ++ error_message]
   | Plain str => [str]
   end, 1).

(** Lines 361-367: what is printed and how the call ends. *)
Definition get_environ (environ : gmap string (option string)) (name : string)
  : list string * ending (option string) :=
  let not_found :=
    let msg := "Environment variable: " ++ name ++ " not found" in
    let '(printed, status) := display_error_and_exit (Plain msg) in
    (printed, SysExit status) in
  match environ !! name with
  | Some value => if truthy value then ([], Done value) else not_found
  | None => not_found
  end.

(** The fields of the command that [get_credentials] reads and writes. *)
Record command : Type := {
  is_euca : bool;
  euca_cert_path : option string;
  euca_private_key_path : option string;
  ec2_user_access_key : option string;
  ec2_user_secret_key : option string;
  environ : gmap string (option string);
}.

Definition set_euca_cert_path (v : option string) (self : command) : command :=
  {| is_euca := is_euca self; euca_cert_path := v;
     euca_private_key_path := euca_private_key_path self;
     ec2_user_access_key := ec2_user_access_key self;
     ec2_user_secret_key := ec2_user_secret_key self;
     environ := environ self |}.

Definition set_euca_private_key_path (v : option string) (self : command) : command :=
  {| is_euca := is_euca self; euca_cert_path := euca_cert_path self;
     euca_private_key_path := v;
     ec2_user_access_key := ec2_user_access_key self;
     ec2_user_secret_key := ec2_user_secret_key self;
     environ := environ self |}.

Definition set_ec2_user_access_key (v : option string) (self : command) : command :=
  {| is_euca := is_euca self; euca_cert_path := euca_cert_path self;
     euca_private_key_path := euca_private_key_path self;
     ec2_user_access_key := v;
     ec2_user_secret_key := ec2_user_secret_key self;
     environ := environ self |}.

Definition set_ec2_user_secret_key (v : option string) (self : command) : command :=
  {| is_euca := is_euca self; euca_cert_path := euca_cert_path self;
     euca_private_key_path := euca_private_key_path self;
     ec2_user_access_key := ec2_user_access_key self;
     ec2_user_secret_key := v;
     environ := environ self |}.

(** What a method that changes the command gives: the lines printed, how
    it ends, and the command after it. *)
Definition result : Type := list string * ending unit * command.

(** The block that lines 371-375, 376-380, 382-386 and 388-392 each are:
    [if not self.F: self.F = self.environ[KEY]; if not self.F: print MSG;
    raise ConnectionFailed]. *)
Definition require_field (get : command → option string)
    (set : option string → command → command) (key msg : string)
    (self : command) : result :=
  if truthy (get self) then ([], Done tt, self)
  else
    match environ self !! key with
    | None => ([], Raised (KeyError key), self)
    | Some v =>
        let self := set v self in
        if truthy (get self) then ([], Done tt, self)
        else ([msg], Raised ConnectionFailed, self)
    end.

(** One statement after another. *)
Definition and_then (first second : command → result) (self : command) : result :=
  match first self with
  | (printed, Done _, self) =>
      let '(printed', e, self) := second self in
      ((printed ++ printed')%list, e, self)
  | stopped => stopped
  end.

(** Lines 369-392. *)
Definition get_credentials (self : command) : result :=
  if is_euca self then
    and_then
      (require_field euca_cert_path set_euca_cert_path
         "EUCA_CERT" "EUCA_CERT variable must be set.")
      (require_field euca_private_key_path set_euca_private_key_path
         "EUCA_PRIVATE_KEY" "EUCA_PRIVATE_KEY variable must be set.")
      self
  else
    and_then
      (require_field ec2_user_access_key set_ec2_user_access_key
         "EC2_ACCESS_KEY" "EC2_ACCESS_KEY environment variable must be set.")
      (require_field ec2_user_secret_key set_ec2_user_secret_key
         "EC2_SECRET_KEY" "EC2_SECRET_KEY environment variable must be set.")
      self.

(** [s.split(sep)] for a one-character [sep]. *)
Fixpoint split (sep : ascii) (s : string) : list string :=
  match s with
  | EmptyString => [EmptyString]
  | String c s' =>
      if Ascii.eqb c sep then EmptyString :: split sep s'
      else match split sep s' with
           | piece :: pieces => String c piece :: pieces
           | [] => [String c EmptyString]
           end
  end.

(** Lines 145-151, the [--filter] branch of the loop of
    [process_cli_args]: [self.filters] after it, or the exit. *)
Definition add_filter (value : string) (filters : gmap string string)
  : list string * ending (gmap string string) :=
  match split "=" value with
  | [name; value] => ([], Done (<[name := value]> filters))
  | _ =>
      let msg := "Filters must be of the form name=value" in
      let '(printed, status) := display_error_and_exit (Plain msg) in
      (printed, SysExit status)
  end.

(** [s.rstrip(c)] for a one-character [c]. *)
Fixpoint rstrip_char (c : ascii) (s : string) : string :=
  match s with
  | EmptyString => EmptyString
  | String d s' =>
      let r := rstrip_char c s' in
      if is_empty r && Ascii.eqb d c then EmptyString else String d r
  end.

(** [s == c * len(s)] *)
Fixpoint all_char (c : ascii) (s : string) : bool :=
  match s with
  | EmptyString => true
  | String d s' => Ascii.eqb d c && all_char c s'
  end.

(** [os.path.split(p)] of the Python library ([posixpath]): [head] is
    [p] up to and with its last slash, without the slashes it ends in
    unless it is made of slashes only; [tail] is the rest. *)
Definition path_split (p : string) : string * string :=
  let '(head, tail) :=
    match split_at_last "/" p with
    | Some (before, after) => (before ++ "/", after)
    | None => (EmptyString, p)
    end in
  (if negb (is_empty head) && negb (all_char "/" head)
   then rstrip_char "/" head else head,
   tail).

(** [os.path.dirname(p)]: the [head] of [os.path.split(p)]. *)
Definition path_dirname (p : string) : string := (path_split p).1.

(** Lines 535-536. *)
Definition get_relative_filename (filename : string) : string :=
  (path_split filename).2.

(** Lines 538-543. *)
Definition get_file_path (filename : string) : string :=
  let relative_filename := get_relative_filename filename in
  let file_path := path_dirname filename in
  if (String.length file_path =? 0)%nat then "." else file_path.

(** A command for trying the definitions: the access key came from the
    command line, the secret key is in the environment. *)
Definition demo_command : command :=
  {| is_euca := false;
     euca_cert_path := None; euca_private_key_path := None;
     ec2_user_access_key := Some "AKIDEXAMPLE";
     ec2_user_secret_key := None;
     environ := {[ "EC2_ACCESS_KEY" := None;
                   "EC2_SECRET_KEY" := Some "s3cr3t" ]} |}.

End EucaCommand.

(** * Properties of the descriptor fence *)
Section FenceProperties.
Import Fence.

(** *** The loop that builds the ranges *)

Lemma range_step_acc rs m e :
  range_step (rs, m) e =
  (rs ++ (range_step ([], m) e).1, (range_step ([], m) e).2).
Proof.
  unfold range_step. destruct (decide (e > m)); simpl; [done|].
  by rewrite app_nil_r.
Qed.

(** The ranges found so far are only ever extended at the end. *)
Lemma range_loop_acc l rs m :
  range_loop (rs, m) l =
  (rs ++ (range_loop ([], m) l).1, (range_loop ([], m) l).2).
Proof.
  unfold range_loop. revert rs m.
  induction l as [|e l IH]; intros rs m; cbn [foldl].
  - simpl. by rewrite app_nil_r.
  - rewrite range_step_acc.
    destruct (range_step ([], m) e) as [rs1 m1]. cbn [fst snd].
    rewrite (IH (rs ++ rs1)), (IH rs1). cbn [fst snd].
    by rewrite app_assoc.
Qed.

Lemma range_loop_cons e l m :
  range_loop ([], m) (e :: l) =
  ((if decide (e > m) then [(m, e - 1)] else []) ++
     (range_loop ([], Z.max m (e + 1)) l).1,
   (range_loop ([], Z.max m (e + 1)) l).2).
Proof.
  unfold range_loop at 1. cbn [foldl].
  change (foldl range_step ?st l) with (range_loop st l).
  unfold range_step. destruct (decide (e > m)); cbn [app].
  - by rewrite (range_loop_acc l [(m, e - 1)]).
  - by destruct (range_loop ([], Z.max m (e + 1)) l).
Qed.

(** [next_range_min] never decreases and ends above every value seen. *)
Lemma range_loop_min l m :
  m ≤ (range_loop ([], m) l).2 ∧
  Forall (λ e, e < (range_loop ([], m) l).2) l.
Proof.
  revert m. induction l as [|e l IH]; intros m.
  - simpl. split; [lia | constructor].
  - rewrite range_loop_cons. simpl.
    destruct (IH (Z.max m (e + 1))) as [Hle Hall].
    split; [lia|]. constructor; [lia | done].
Qed.

(** It ends at the least value that is above the start and above every
    value seen. *)
Lemma range_loop_min_le l m b :
  m ≤ b → Forall (λ e, e < b) l → (range_loop ([], m) l).2 ≤ b.
Proof.
  revert m. induction l as [|e l IH]; intros m Hm Hall.
  - done.
  - rewrite range_loop_cons. simpl.
    inversion Hall; subst. apply IH; [lia | done].
Qed.

Lemma in_ranges_app x rs1 rs2 :
  in_ranges x (rs1 ++ rs2) ↔ in_ranges x rs1 ∨ in_ranges x rs2.
Proof. unfold in_ranges. apply Exists_app. Qed.

Lemma in_ranges_nil x : ¬ in_ranges x [].
Proof. unfold in_ranges. rewrite Exists_nil. tauto. Qed.

Lemma in_ranges_singleton x lo hi : in_ranges x [(lo, hi)] ↔ lo ≤ x ≤ hi.
Proof.
  unfold in_ranges. rewrite Exists_cons, Exists_nil. unfold in_range. simpl.
  tauto.
Qed.

(** The ranges built from a sorted list, starting at [m], hold exactly the
    values from [m] up to the final [next_range_min] that are not in the
    list. *)
Lemma range_loop_covers l m x :
  StronglySorted Z.le l →
  in_ranges x (range_loop ([], m) l).1 ↔
  m ≤ x < (range_loop ([], m) l).2 ∧ x ∉ l.
Proof.
  revert m. induction l as [|e l IH]; intros m Hs.
  - simpl. split; [by intros ?%in_ranges_nil | lia].
  - apply StronglySorted_cons in Hs as [Hge Hs].
    rewrite range_loop_cons. simpl.
    rewrite in_ranges_app, (IH _ Hs), not_elem_of_cons.
    pose proof (range_loop_min l (Z.max m (e + 1))) as [Hle _].
    destruct (decide (e > m)) as [Hgt|Hngt].
    + rewrite in_ranges_singleton. split.
      * intros [Hx|[Hx Hnin]]; (split; [lia|]); (split; [lia|]); [|done].
        intros Hin. rewrite Forall_forall in Hge.
        specialize (Hge _ Hin). lia.
      * intros (Hx & Hne & Hnin).
        destruct (decide (x < e)); [left; lia | right].
        split; [lia | done].
    + split.
      * intros [Hx|[Hx Hnin]]; [by apply in_ranges_nil in Hx |].
        split; [lia|]. split; [lia | done].
      * intros (Hx & Hne & Hnin). right. split; [lia | done].
Qed.

(** Each range built from [m] on starts at [m] or later and ends below the
    final [next_range_min]; the ranges ascend. *)
Lemma range_loop_ascending l m :
  ascending (range_loop ([], m) l).1 ∧
  Forall (λ r : Z * Z, m ≤ r.1 ∧ r.2 < (range_loop ([], m) l).2)
    (range_loop ([], m) l).1.
Proof.
  revert m. induction l as [|e l IH]; intros m.
  - simpl. split; constructor.
  - rewrite range_loop_cons. simpl.
    destruct (IH (Z.max m (e + 1))) as [Hasc Hall].
    pose proof (range_loop_min l (Z.max m (e + 1))) as [Hle _].
    destruct (decide (e > m)) as [Hgt|Hngt]; simpl.
    + split.
      * apply StronglySorted_cons. split; [|done].
        eapply Forall_impl; [exact Hall|]. simpl. intros r [? ?]. lia.
      * constructor; [simpl; lia|].
        eapply Forall_impl; [exact Hall|]. simpl. intros r [? ?]. lia.
    + split; [done|].
      eapply Forall_impl; [exact Hall|]. simpl. intros r [? ?]. lia.
Qed.

(** *** The finished range list *)

Lemma fileno_ranges_eq fs :
  fileno_ranges fs =
  (range_loop ([], 0) (merge_sort Z.le fs)).1 ++ [(last_range_min fs, bound)].
Proof.
  unfold fileno_ranges, last_range_min.
  by destruct (range_loop ([], 0) (merge_sort Z.le fs)).
Qed.

Lemma last_range_min_above fs :
  0 ≤ last_range_min fs ∧ Forall (λ e, e < last_range_min fs) fs.
Proof.
  unfold last_range_min.
  destruct (range_loop_min (merge_sort Z.le fs) 0) as [H0 Hall].
  split; [done|].
  rewrite Forall_forall in Hall |- *. intros e He. apply Hall.
  by rewrite merge_sort_Permutation.
Qed.

Lemma last_range_min_le fs b :
  0 ≤ b → Forall (λ e, e < b) fs → last_range_min fs ≤ b.
Proof.
  intros Hb Hall. apply range_loop_min_le; [done|].
  rewrite Forall_forall in Hall |- *. intros e He. apply Hall.
  by rewrite <- (merge_sort_Permutation Z.le).
Qed.

(** What the range list holds, whatever the preserved descriptors are. *)
Lemma fileno_ranges_in x fs :
  in_ranges x (fileno_ranges fs) ↔
  (0 ≤ x < last_range_min fs ∧ x ∉ fs) ∨ last_range_min fs ≤ x ≤ bound.
Proof.
  rewrite fileno_ranges_eq, in_ranges_app, in_ranges_singleton.
  rewrite range_loop_covers by (apply StronglySorted_merge_sort; apply _).
  fold (last_range_min fs).
  by rewrite (merge_sort_Permutation Z.le fs).
Qed.

(** No range holds a preserved descriptor. *)
Lemma fileno_ranges_avoid x fs : in_ranges x (fileno_ranges fs) → x ∉ fs.
Proof.
  rewrite fileno_ranges_in. intros [[_ Hx]|Hx]; [done|].
  intros Hin. destruct (last_range_min_above fs) as [_ Hall].
  rewrite Forall_forall in Hall. specialize (Hall _ Hin). lia.
Qed.

Lemma fileno_ranges_ascending fs : ascending (fileno_ranges fs).
Proof.
  rewrite fileno_ranges_eq. unfold ascending.
  destruct (range_loop_ascending (merge_sort Z.le fs) 0) as [Hasc Hall].
  fold (last_range_min fs) in Hall.
  apply StronglySorted_app. split_and!.
  - intros r1 r2 Hr1 ->%list_elem_of_singleton. simpl.
    rewrite Forall_forall in Hall. by destruct (Hall _ Hr1).
  - done.
  - repeat constructor.
Qed.

Lemma ascending_lookup rs (i j : nat) r1 r2 :
  ascending rs → rs !! i = Some r1 → rs !! j = Some r2 → (i < j)%nat →
  r1.2 < r2.1.
Proof.
  unfold ascending. intros Hs. revert i j.
  induction Hs as [|r rs Hs IH Hall]; intros i j Hi Hj Hlt.
  - by rewrite lookup_nil in Hi.
  - destruct j as [|j]; [lia|]. simpl in Hj.
    destruct i as [|i]; simpl in Hi.
    + inversion Hi; subst. rewrite Forall_forall in Hall.
      apply Hall. by eapply list_elem_of_lookup_2.
    + apply (IH i j); [done..|lia].
Qed.

Lemma ascending_disjoint rs : ascending rs → pairwise_disjoint rs.
Proof.
  intros Hasc i j r1 r2 x Hi Hj Hne [[? ?] [? ?]].
  destruct (decide (i < j)%nat).
  - pose proof (ascending_lookup rs i j r1 r2 Hasc Hi Hj). lia.
  - pose proof (ascending_lookup rs j i r2 r1 Hasc Hj Hi). lia.
Qed.

(** *** The preserved descriptors *)



(** Descriptors 1 and 2 are preserved whenever the loop ends. *)
Lemma collect_filenos_acc fds acc fs x :
  collect_filenos fds acc = Ret fs → x ∈ acc → x ∈ fs.
Proof.
  revert acc. induction fds as [|fd fds IH]; intros acc Heq Hin; simpl in Heq.
  - by inversion Heq; subst.
  - destruct fd; try done; eapply IH; try exact Heq; set_solver.
Qed.

Lemma except_filenos_std except_fds fs :
  except_filenos except_fds = Ret fs → 1 ∈ fs ∧ 2 ∈ fs.
Proof.
  destruct except_fds as [fds|]; simpl.
  - intros Heq. split; eapply collect_filenos_acc; try exact Heq; set_solver.
  - intros [= <-]. set_solver.
Qed.


(** *** What the fence closes *)

Lemma elem_of_without_range fd lo hi (open : gset Z) :
  fd ∈ without_range lo hi open ↔ fd ∈ open ∧ ¬ (lo ≤ fd < hi).
Proof. unfold without_range. rewrite elem_of_filter. tauto. Qed.

Lemma reached_subset ranges r : r ∈ reached ranges → r ∈ ranges.
Proof.
  induction ranges as [|r' ranges IH]; simpl; [done|].
  destruct (decide (fits_range r')); [|by intros ?%elem_of_nil].
  intros [->|Hin]%elem_of_cons; [apply list_elem_of_here|].
  by apply list_elem_of_further, IH.
Qed.

Lemma reached_all ranges : Forall fits_range ranges → reached ranges = ranges.
Proof.
  induction 1 as [|r ranges Hr _ IH]; simpl; [done|].
  rewrite decide_True by done. by rewrite IH.
Qed.

(** How the loop of lines 56-57 ends does not depend on the table: it
    raises exactly when a pair does not fit. *)
Lemma close_each_outcome ranges (open : gset Z) :
  (close_each ranges open).1 =
  if decide (Forall fits_range ranges) then Ret tt else Raise OverflowError.
Proof.
  revert open.
  induction ranges as [|r ranges IH]; intros open; cbn [close_each].
  - destruct (decide (Forall fits_range [])) as [|H]; [done|].
    destruct H. constructor.
  - unfold closerange.
    destruct (decide (Forall fits_range (r :: ranges))) as [Hall|Hall].
    + apply Forall_cons in Hall as [Hr Hall].
      rewrite decide_True by exact Hr. cbn [fst snd].
      rewrite IH. by rewrite decide_True by done.
    + destruct (decide (fits_int r.1 ∧ fits_int r.2)) as [Hr|Hr]; [|done].
      cbn [fst snd]. rewrite IH. rewrite decide_False; [done|].
      intros Hrest. apply Hall. by constructor.
Qed.

(** A descriptor is open after lines 56-57 when it was open before and no
    range, read as [os.closerange] reads it, holds it. *)
Lemma elem_of_close_ranges fd ranges (open : gset Z) :
  fd ∈ close_ranges ranges open ↔
  fd ∈ open ∧ Forall (λ r : Z * Z, ¬ (r.1 ≤ fd < r.2)) (reached ranges).
Proof.
  unfold close_ranges. revert open.
  induction ranges as [|r ranges IH]; intros open; cbn [close_each reached].
  - rewrite Forall_nil. cbn [snd]. tauto.
  - unfold closerange, fits_range.
    destruct (decide (fits_int r.1 ∧ fits_int r.2)) as [Hr|Hr]; cbn [fst snd].
    + rewrite IH, elem_of_without_range, Forall_cons. tauto.
    + rewrite Forall_nil. tauto.
Qed.

(** The descriptor just below a preserved one is never closed: the range
    that should hold it ends at it, and [os.closerange] leaves its upper
    end out. *)
Lemma below_preserved_survives fs e (open : gset Z) :
  e ∈ fs → e - 1 ∈ open → e - 1 ∈ close_ranges (fileno_ranges fs) open.
Proof.
  intros He Hopen. apply elem_of_close_ranges. split; [done|].
  apply Forall_forall. intros r Hr%reached_subset [Hlo Hhi].
  apply (fileno_ranges_avoid e fs); [|done].
  apply Exists_exists. exists r. split; [done|].
  unfold in_range. lia.
Qed.

(** A preserved descriptor is never closed. *)
Lemma preserved_survives fs e (open : gset Z) :
  e ∈ fs → e ∈ open → e ∈ close_ranges (fileno_ranges fs) open.
Proof.
  intros He Hopen. apply elem_of_close_ranges. split; [done|].
  apply Forall_forall. intros r Hr%reached_subset [Hlo Hhi].
  apply (fileno_ranges_avoid e fs); [|done].
  apply Exists_exists. exists r. split; [done|].
  unfold in_range. lia.
Qed.

(** C2. The fence does not close exactly the descriptors of [[0, 1024]]
    outside the preserved set. Called with [except_fds = [5]] on a table
    where 0..6 and 1024 are open, it closes descriptors 3 and 6 only:
    [os.closerange] is called with (0, 0), (3, 4) and (6, 1024), and it
    leaves the upper end of each pair out, so 0, 4 and 1024 stay open,
    where the specified fence leaves 1, 2 and 5. Whatever the preserved
    set is, every preserved descriptor survives, and so does the
    descriptor just below it. *)
Theorem close_all_fds_leaves_range_ends :
  fileno_ranges [1; 2; 5] = [(0, 0); (3, 4); (6, 1024)] ∧
  close_all_fds (Some [FdInt 5]) (list_to_set [0; 1; 2; 3; 4; 5; 6; 1024]) =
    (Ret tt, list_to_set [0; 1; 2; 4; 5; 1024]) ∧
  fenced_as_specified [1; 2; 5] (list_to_set [0; 1; 2; 3; 4; 5; 6; 1024]) =
    list_to_set [1; 2; 5] ∧
  (∀ fs e (open : gset Z),
     e ∈ fs →
     (e ∈ open → e ∈ close_ranges (fileno_ranges fs) open) ∧
     (e - 1 ∈ open → e - 1 ∈ close_ranges (fileno_ranges fs) open)).
Proof.
  split_and!; [vm_compute; reflexivity..|].
  intros fs e open He. split.
  - by apply preserved_survives.
  - by apply below_preserved_survives.
Qed.




(** C5, as stated, fails: with descriptor 2000 preserved the ranges are
    (0, 0), (3, 1999) and (2001, 1024), and 1500 is in the second one, above
    the bound. *)
Lemma ranges_exceed_bound :
  except_filenos (Some [FdInt 2000]) = Ret [1; 2; 2000] ∧
  fileno_ranges [1; 2; 2000] = [(0, 0); (3, 1999); (2001, 1024)] ∧
  ¬ partitions_bound [1; 2; 2000] (fileno_ranges [1; 2; 2000]).
Proof.
  split_and!; [reflexivity | vm_compute; reflexivity |].
  intros (_ & _ & Hcov).
  assert (Hin : in_ranges 1500 (fileno_ranges [1; 2; 2000])).
  { apply fileno_ranges_in. left. split.
    - destruct (last_range_min_above [1; 2; 2000]) as [_ Hall].
      rewrite Forall_forall in Hall.
      assert (2000 ∈ [1; 2; 2000]) as H2000%Hall
        by repeat first [apply list_elem_of_here | apply list_elem_of_further].
      lia.
    - rewrite !not_elem_of_cons. split_and!; [lia..|apply not_elem_of_nil]. }
  destruct (Hcov 1500) as [Hb _].
  specialize (Hb (or_introl Hin)). unfold bound in Hb. lia.
Qed.

(** C5, amended. When every preserved descriptor lies in [[0, 1024]], the
    ranges are ascending and pairwise disjoint, hold no preserved
    descriptor, and together with the preserved descriptors (1 and 2 among
    them) are exactly [[0, 1024]]. *)
Theorem fileno_ranges_partition except_fds fs :
  except_filenos except_fds = Ret fs →
  Forall (λ fd, 0 ≤ fd ≤ bound) fs →
  partitions_bound fs (fileno_ranges fs) ∧
  (∀ x, in_ranges x (fileno_ranges fs) → x ∉ fs) ∧
  1 ∈ fs ∧ 2 ∈ fs.
Proof.
  intros Hfs Hall.
  pose proof (fileno_ranges_ascending fs) as Hasc.
  unfold partitions_bound. split_and!.
  - done.
  - by apply ascending_disjoint.
  - intros x. rewrite fileno_ranges_in.
    destruct (last_range_min_above fs) as [H0 Habove].
    assert (last_range_min fs ≤ bound + 1) as Hle.
    { apply last_range_min_le; [unfold bound; lia|].
      eapply Forall_impl; [exact Hall|]. simpl. lia. }
    rewrite Forall_forall in Hall, Habove. split.
    + intros [[[Hx _]|Hx]|Hx]; [lia | lia | by apply Hall].
    + intros Hx. destruct (decide (x ∈ fs)) as [|Hnin]; [by right|].
      left. destruct (decide (x < last_range_min fs)); [left | right; lia].
      split; [lia | done].
  - intros x. apply fileno_ranges_avoid.
  - by eapply except_filenos_std.
  - by eapply except_filenos_std.
Qed.

Lemma fileno_ranges_partition_witness :
  partitions_bound [1; 2; 5; 7] (fileno_ranges [1; 2; 5; 7]) ∧
  (∀ x, in_ranges x (fileno_ranges [1; 2; 5; 7]) → x ∉ [1; 2; 5; 7]) ∧
  1 ∈ [1; 2; 5; 7] ∧ 2 ∈ [1; 2; 5; 7].
Proof.
  apply (fileno_ranges_partition (Some [FdInt 5; FdNone; FdFile 7])).
  - reflexivity.
  - unfold bound. repeat constructor; lia.
Defined.


End FenceProperties.

(** * Properties of the fingerprint parser *)
Section FingerprintProperties.
Import Fingerprint.
Local Open Scope string_scope.

Lemma lstrip_app_space lead s : all_space lead → lstrip (lead ++ s) = lstrip s.
Proof.
  induction lead as [|c lead IH]; simpl; [done|].
  intros [-> Hlead]. by apply IH.
Qed.

Lemma rstrip_all_space trail : all_space trail → rstrip trail = "".
Proof.
  induction trail as [|c trail IH]; simpl; [done|].
  intros [-> Htrail]. by rewrite IH.
Qed.

Lemma rstrip_app_space s trail : all_space trail → rstrip (s ++ trail) = rstrip s.
Proof.
  intros Htrail. induction s as [|c s IH]; simpl.
  - by apply rstrip_all_space.
  - by rewrite IH.
Qed.

Lemma lstrip_app_nonspace s trail :
  is_empty (lstrip s) = false → lstrip (s ++ trail) = lstrip s ++ trail.
Proof.
  induction s as [|c s IH]; simpl; [done|].
  destruct (is_space c); [exact IH | done].
Qed.

(** Whitespace around a string that has a character of another kind does
    not change what [strip] gives. *)
Lemma strip_surrounding lead s trail :
  all_space lead → all_space trail → is_empty (lstrip s) = false →
  strip (lead ++ s ++ trail) = strip s.
Proof.
  intros Hlead Htrail Hs. unfold strip.
  rewrite lstrip_app_space by done.
  rewrite lstrip_app_nonspace by done.
  by apply rstrip_app_space.
Qed.

Lemma split_at_last_free sep s : free_of sep s → split_at_last sep s = None.
Proof.
  induction s as [|c s IH]; simpl; [done|].
  intros [-> Hs]. by rewrite IH.
Qed.

(** [rsplit(sep, 1)[-1]] is the text after the last separator. *)
Lemma last_piece_after_last_sep sep before after :
  free_of sep after →
  last_piece (rsplit1 sep (before ++ String sep after)) = after.
Proof.
  intros Hfree. unfold rsplit1.
  assert (split_at_last sep (before ++ String sep after) = Some (before, after))
    as ->; [|done].
  induction before as [|c before IH]; simpl.
  - by rewrite split_at_last_free, Ascii.eqb_refl.
  - by rewrite IH.
Qed.

(** C9. When the external tool writes [SHA1 Fingerprint=AA:BB:CC:DD],
    with any whitespace before and after it, the fingerprint returned is
    [aabbccdd]. *)
Theorem canonical_fingerprint openssl cert_filename lead trail :
  all_space lead → all_space trail →
  openssl ["openssl"; "x509"; "-in"; cert_filename;
           "-fingerprint"; "-sha1"; "-noout"] =
    lead ++ canonical_output ++ trail →
  get_cert_fingerprint openssl cert_filename = "aabbccdd".
Proof.
  intros Hlead Htrail Hout. unfold get_cert_fingerprint, parse_fingerprint.
  rewrite Hout, strip_surrounding by done.
  vm_compute. reflexivity.
Qed.

Lemma canonical_fingerprint_witness :
  get_cert_fingerprint
    (λ _, canonical_output ++ String "010"%char "") "cert.pem" = "aabbccdd".
Proof.
  apply (canonical_fingerprint _ "cert.pem" "" (String "010"%char "")).
  - exact I.
  - split; [reflexivity | exact I].
  - reflexivity.
Defined.

End FingerprintProperties.

(** * Properties of the liveness probe and the reaper *)
Section ReaperProperties.
Import Reaper.
Context {os_state : Type} `{!OS os_state}.
Implicit Types (pid status : Z) (w : world os_state).

(** The probe calls [os.kill] once and starts no thread. *)
Lemma pid_exists_frame pid w :
  os (pid_exists pid w).2 = (os_kill pid 0 (os w)).2 ∧
  started (pid_exists pid w).2 = started w.
Proof.
  unfold pid_exists, try_except, bind, kill, ret, raise.
  destruct (os_kill pid 0 (os w)) as [[[]|[msg|errno|]] s]; simpl;
    [done | done | | done].
  by destruct (decide (errno = ESRCH)).
Qed.

(** C6. The probe answers [False] exactly when [os.kill(pid, 0)] raises
    the [OSError] of [ESRCH], [True] exactly when the call succeeds, and
    raises exactly the other errors of the call, each as it came. *)
Theorem pid_exists_answers pid w :
  ((pid_exists pid w).1 = Ret false ↔
     (os_kill pid 0 (os w)).1 = Raise (OSError ESRCH)) ∧
  ((pid_exists pid w).1 = Ret true ↔ (os_kill pid 0 (os w)).1 = Ret tt) ∧
  (∀ e, (pid_exists pid w).1 = Raise e ↔
          (os_kill pid 0 (os w)).1 = Raise e ∧ e ≠ OSError ESRCH).
Proof.
  unfold pid_exists, try_except, bind, kill, ret, raise.
  destruct (os_kill pid 0 (os w)) as [[[]|[msg|errno|]] s]; simpl.
  - split_and!; [split; congruence | done |].
    intros e. split; [congruence | intros [? _]; congruence].
  - split_and!; [split; congruence | split; congruence |].
    intros e. split; [intros [= <-]; split; congruence | intros [? _]; congruence].
  - destruct (decide (errno = ESRCH)) as [->|Hne]; simpl.
    + split_and!; [done | split; congruence |].
      intros e. split; [congruence | intros [[= <-] Hne]; congruence].
    + split_and!; [split; congruence | split; congruence |].
      intros e. split; [intros [= <-]; split; congruence | intros [? _]; congruence].
  - split_and!; [split; congruence | split; congruence |].
    intros e. split; [intros [= <-]; split; congruence | intros [? _]; congruence].
Qed.

(** C7. When the probe answers [False], [waitpid_in_thread] returns
    without an error and without a thread started: the state it leaves is
    the one the probe left. *)
Theorem waitpid_in_thread_noop pid w w' :
  pid_exists pid w = (Ret false, w') →
  waitpid_in_thread pid w = (Ret tt, w') ∧ started w' = started w.
Proof.
  intros Hprobe. split.
  - unfold waitpid_in_thread, bind. by rewrite Hprobe.
  - destruct (pid_exists_frame pid w) as [_ Hst]. by rewrite Hprobe in Hst.
Qed.

(** An [OSError] that leaves [check_and_waitpid] is one that [os.kill]
    raised in the probe, with an [errno] other than [ESRCH]. *)
Lemma check_and_waitpid_OSError pid status w errno :
  (check_and_waitpid pid status w).1 = Raise (OSError errno) →
  (os_kill pid 0 (os w)).1 = Raise (OSError errno) ∧ errno ≠ ESRCH.
Proof.
  unfold check_and_waitpid, pid_exists, try_except, bind, kill, waitpid,
    ret, raise.
  destruct (os_kill pid 0 (os w)) as [[[]|[msg|n|]] s]; cbn [fst snd os].
  - by destruct (os_waitpid pid status s) as [[r|[msg|n|]] s'].
  - done.
  - destruct (decide (n = ESRCH)) as [->|Hne]; cbn [fst snd]; [done|].
    by intros [= <-].
  - done.
Qed.

(** C3, amended. Every [OSError] of the wait is swallowed, whatever its
    [errno], and the call returns; an error that the probe before the wait
    raises is not swallowed; and no other [OSError] leaves the call: one
    that does is an error of [os.kill] in the probe, with an [errno] other
    than [ESRCH]. *)
Theorem check_and_waitpid_errors pid status w :
  (∀ w1 errno w2,
     pid_exists pid w = (Ret true, w1) →
     waitpid pid status w1 = (Raise (OSError errno), w2) →
     check_and_waitpid pid status w = (Ret tt, w2)) ∧
  (∀ e w1,
     pid_exists pid w = (Raise e, w1) →
     check_and_waitpid pid status w = (Raise e, w1)) ∧
  (∀ errno,
     (check_and_waitpid pid status w).1 = Raise (OSError errno) →
     (os_kill pid 0 (os w)).1 = Raise (OSError errno) ∧ errno ≠ ESRCH ∧
     (pid_exists pid w).1 = Raise (OSError errno)).
Proof.
  split_and!.
  - intros w1 errno w2 Hprobe Hwait.
    unfold check_and_waitpid, bind at 1. rewrite Hprobe.
    unfold try_except, bind. by rewrite Hwait.
  - intros e w1 Hprobe.
    unfold check_and_waitpid, bind at 1. by rewrite Hprobe.
  - intros errno [Hkill Hne]%check_and_waitpid_OSError.
    split_and!; [done..|].
    unfold pid_exists, try_except, bind, kill, ret, raise.
    destruct (os_kill pid 0 (os w)) as [r s]. cbn [fst] in Hkill. subst r.
    cbn [fst snd]. by rewrite decide_False.
Qed.

End ReaperProperties.

Section ReaperExamples.
Import Reaper.

Lemma waitpid_in_thread_noop_witness :
  waitpid_in_thread 300 demo_world = (Ret tt, demo_world) ∧
  started demo_world = started demo_world.
Proof. apply (waitpid_in_thread_noop 300 demo_world demo_world). reflexivity. Defined.

(** C3, as stated, fails: the wait on process 100 is interrupted
    ([EINTR]), which is not the error of a vanished process, and the error
    is swallowed all the same. *)
Lemma interrupted_wait_is_swallowed :
  pid_exists 100 demo_world = (Ret true, demo_world) ∧
  waitpid 100 0 demo_world = (Raise (OSError EINTR), demo_world) ∧
  ¬ vanished EINTR ∧
  check_and_waitpid 100 0 demo_world = (Ret tt, demo_world).
Proof.
  split_and!; try reflexivity.
  unfold vanished, EINTR, ECHILD, ESRCH. lia.
Qed.

Lemma check_and_waitpid_errors_witness :
  check_and_waitpid 200 0 demo_world = (Ret tt, demo_world) ∧
  check_and_waitpid 1 0 demo_world = (Raise (OSError EPERM), demo_world).
Proof.
  split.
  - apply (proj1 (check_and_waitpid_errors 200 0 demo_world) demo_world ECHILD);
      reflexivity.
  - apply (proj1 (proj2 (check_and_waitpid_errors 1 0 demo_world)));
      reflexivity.
Defined.

End ReaperExamples.

(** * Properties of the worker wrapper *)
Section WorkerProperties.
Import Worker.
Context {kwargs : Type}.
Implicit Types (func : callable kwargs) (kw : kwargs) (e : py_exception).

(** C1, amended. When the unit of work raises an [Exception] that is not
    a [KeyboardInterrupt], and [str()] of the name and of the exception
    give strings, the wrapper writes the traceback and the line that names
    the unit of work ([unknown] without a [__name__]) to standard error
    and returns to its caller: it neither raises nor calls [os._exit], the
    child's exit status is the one of a target that returned, 0, and
    [spawn_process] gives the child back. *)
Theorem process_wrapper_contains_failure func kw e str_name str_e uncaught pid :
  call func kw = Raises e →
  is_KeyboardInterrupt e = false →
  is_Exception e = true →
  default (Str "unknown") (name_attr func) = Str str_name →
  exc_str e = Str str_e →
  let diagnostic := [Traceback e; PrintLine (error_msg str_name str_e)] in
  process_wrapper func kw = (diagnostic, Returns) ∧
  child_exit_status uncaught (process_wrapper func kw).2 = 0 ∧
  spawn_process (Ret pid) func kw =
    Ret {| child_pid := pid; child_stderr := diagnostic; child_end := Returns |}.
Proof.
  intros Hcall Hki Hexc Hname Hstr diagnostic.
  assert (process_wrapper func kw = (diagnostic, Returns)) as Hw.
  { unfold process_wrapper, try_call, getattr_name.
    by rewrite Hcall, Hki, Hexc, Hname, Hstr. }
  split_and!; [done | by rewrite Hw |].
  unfold spawn_process. by rewrite Hw.
Qed.

(** C8. When the unit of work is interrupted by a [KeyboardInterrupt],
    the wrapper writes nothing and calls [os._exit(os.EX_OK)], so the
    child exits with status 0, as it does when the unit of work
    completes. *)
Theorem process_wrapper_cancelled func kw e uncaught :
  call func kw = Raises e →
  is_KeyboardInterrupt e = true →
  process_wrapper func kw = ([], OsExit 0) ∧
  child_exit_status uncaught (process_wrapper func kw).2 = 0 ∧
  (∀ func' kw',
     call func' kw' = Completes →
     process_wrapper func' kw' = process_wrapper func kw).
Proof.
  intros Hcall Hki.
  assert (process_wrapper func kw = ([], OsExit 0)) as Hw.
  { unfold process_wrapper, try_call. by rewrite Hcall, Hki. }
  split_and!; [done | by rewrite Hw |].
  intros func' kw' Hcall'. rewrite Hw.
  unfold process_wrapper, try_call. by rewrite Hcall'.
Qed.

End WorkerProperties.

Section WorkerExamples.
Import Worker.

(** C1, as stated, fails: the worker that raises [boom] gets its
    diagnostic, but the wrapper returns instead of leaving the process, and
    the exit status of the child is 0. *)
Lemma failed_worker_returns :
  call failing_work tt = Raises boom ∧
  process_wrapper failing_work tt =
    ([Traceback boom; PrintLine (error_msg "bundle" "boom")], Returns) ∧
  (∀ uncaught,
     child_exit_status uncaught (process_wrapper failing_work tt).2 = 0).
Proof. split_and!; reflexivity. Qed.

Lemma process_wrapper_contains_failure_witness :
  process_wrapper failing_work tt =
    ([Traceback boom; PrintLine (error_msg "bundle" "boom")], Returns) ∧
  child_exit_status (λ _, 1) (process_wrapper failing_work tt).2 = 0 ∧
  spawn_process (Ret 4242) failing_work tt =
    Ret {| child_pid := 4242;
           child_stderr :=
             [Traceback boom; PrintLine (error_msg "bundle" "boom")];
           child_end := Returns |}.
Proof.
  apply (process_wrapper_contains_failure failing_work tt boom
           "bundle" "boom" (λ _, 1) 4242); reflexivity.
Defined.

Lemma process_wrapper_cancelled_witness :
  process_wrapper interrupted_work tt = ([], OsExit 0) ∧
  child_exit_status (λ _, 1) (process_wrapper interrupted_work tt).2 = 0 ∧
  (∀ (func' : callable unit) kw',
     call func' kw' = Completes →
     process_wrapper func' kw' = process_wrapper interrupted_work tt).
Proof.
  apply (process_wrapper_cancelled interrupted_work tt interrupt (λ _, 1));
    reflexivity.
Defined.

End WorkerExamples.

(** * More on the descriptor fence *)
Section FenceBehaviour.
Import Fence.

(** The descriptors that [os.closerange] closes for the ranges built from
    a sorted list, starting at [m]: those from [m] up to the final
    [next_range_min] that are neither in the list nor just below a member
    of it. *)
Lemma range_loop_closes l m x :
  StronglySorted Z.le l →
  Exists (λ r : Z * Z, r.1 ≤ x < r.2) (range_loop ([], m) l).1 ↔
  m ≤ x < (range_loop ([], m) l).2 ∧ (x ∉ l) ∧ (x + 1) ∉ l.
Proof.
  revert m. induction l as [|e l IH]; intros m Hs.
  - simpl. rewrite Exists_nil. lia.
  - apply StronglySorted_cons in Hs as [Hge Hs].
    rewrite range_loop_cons. simpl.
    rewrite Exists_app, (IH _ Hs), !not_elem_of_cons.
    pose proof (range_loop_min l (Z.max m (e + 1))) as [Hle _].
    rewrite Forall_forall in Hge.
    destruct (decide (e > m)) as [Hgt|Hngt].
    + rewrite Exists_cons, Exists_nil. simpl. split.
      * intros [[Hx|[]]|(Hx & Hn1 & Hn2)].
        -- split_and!; try lia.
           ++ intros Hin. specialize (Hge _ Hin). lia.
           ++ intros Hin. specialize (Hge _ Hin). lia.
        -- split_and!; try lia; done.
      * intros (Hx & [Hne Hn1] & [Hne' Hn2]).
        destruct (decide (x < e)); [left; left; lia | right].
        split_and!; try lia; done.
    + rewrite Exists_nil. split.
      * intros [[]|(Hx & Hn1 & Hn2)]. split_and!; try lia; done.
      * intros (Hx & [Hne Hn1] & [Hne' Hn2]). right.
        split_and!; try lia; done.
Qed.

(** What the calls of lines 56-57 close, whatever the preserved
    descriptors are. *)
Lemma fileno_ranges_closes x fs :
  Exists (λ r : Z * Z, r.1 ≤ x < r.2) (fileno_ranges fs) ↔
  (0 ≤ x < last_range_min fs ∧ (x ∉ fs) ∧ (x + 1) ∉ fs) ∨
  last_range_min fs ≤ x < bound.
Proof.
  rewrite fileno_ranges_eq, Exists_app, Exists_cons, Exists_nil.
  rewrite range_loop_closes by (apply StronglySorted_merge_sort; apply _).
  fold (last_range_min fs). simpl.
  rewrite !(merge_sort_Permutation Z.le fs). tauto.
Qed.

Lemma elem_of_close_ranges_Exists fd ranges (open : gset Z) :
  fd ∈ close_ranges ranges open ↔
  fd ∈ open ∧ ¬ Exists (λ r : Z * Z, r.1 ≤ fd < r.2) (reached ranges).
Proof.
  rewrite elem_of_close_ranges. split; intros [Hopen Hr]; (split; [done|]).
  - intros Hex. apply Exists_exists in Hex as (r & Hin & Hr').
    rewrite Forall_forall in Hr. by apply (Hr r).
  - apply Forall_forall. intros r Hin Hr'. apply Hr.
    apply Exists_exists. by exists r.
Qed.

(** A descriptor that no range holds, as [os.closerange] reads the
    ranges, stays open. *)
Lemma close_ranges_keeps fd ranges (open : gset Z) :
  fd ∈ open → ¬ Exists (λ r : Z * Z, r.1 ≤ fd < r.2) ranges →
  fd ∈ close_ranges ranges open.
Proof.
  intros Hopen Hn. apply elem_of_close_ranges_Exists. split; [done|].
  intros (r & Hin%reached_subset & Hr)%Exists_exists.
  apply Hn, Exists_exists. by exists r.
Qed.

(** Each range built from [m] on starts at [m] or later, is not empty, and
    ends below the final [next_range_min]. *)
Lemma range_loop_bounds l m :
  Forall (λ r : Z * Z, m ≤ r.1 ∧ r.1 ≤ r.2 ∧ r.2 < (range_loop ([], m) l).2)
    (range_loop ([], m) l).1.
Proof.
  revert m. induction l as [|e l IH]; intros m.
  - constructor.
  - rewrite range_loop_cons. cbn [fst snd].
    pose proof (range_loop_min l (Z.max m (e + 1))) as [Hle _].
    apply Forall_app. split.
    + destruct (decide (e > m)); [|constructor].
      constructor; [|constructor]. cbn [fst snd]. lia.
    + eapply Forall_impl; [exact (IH (Z.max m (e + 1)))|]. cbn beta.
      intros r (? & ? & ?). lia.
Qed.

(** With every preserved descriptor below [b], itself at most [INT_MAX],
    [os.closerange] takes every range. *)
Lemma fileno_ranges_fit fs b :
  0 ≤ b ≤ INT_MAX → Forall (λ e, e < b) fs →
  Forall fits_range (fileno_ranges fs).
Proof.
  intros Hb Hall.
  assert (last_range_min fs ≤ b) as Hle by (apply last_range_min_le; [lia | done]).
  destruct (last_range_min_above fs) as [H0 _].
  rewrite fileno_ranges_eq. apply Forall_app. split.
  - eapply Forall_impl; [exact (range_loop_bounds (merge_sort Z.le fs) 0)|].
    cbn beta. fold (last_range_min fs). intros r (? & ? & ?).
    unfold fits_range, fits_int, INT_MIN, INT_MAX in *. lia.
  - constructor; [|constructor].
    unfold fits_range, fits_int, INT_MIN, INT_MAX, bound in *. cbn [fst snd]. lia.
Qed.

(** A turn of the loop for a value below [next_range_min] changes
    nothing. *)
Lemma range_step_below rs m e : e < m → range_step (rs, m) e = (rs, m).
Proof.
  intros Hlt. unfold range_step.
  rewrite decide_False by lia. f_equal. lia.
Qed.

Lemma filter_all {A} (P : A → Prop) `{!∀ x, Decision (P x)} (l : list A) :
  Forall P l → filter P l = l.
Proof.
  induction 1 as [|x l Hx _ IH]; [done|].
  by rewrite filter_cons_True, IH.
Qed.

Lemma StronglySorted_filter_le (P : Z → Prop) `{!∀ x, Decision (P x)} l :
  StronglySorted Z.le l → StronglySorted Z.le (filter P l).
Proof.
  induction 1 as [|x l Hs IH Hall]; [constructor|].
  destruct (decide (P x)).
  - rewrite filter_cons_True by done. constructor; [done|].
    rewrite Forall_forall in Hall |- *.
    intros y [_ Hy]%list_elem_of_filter. by apply Hall.
  - by rewrite filter_cons_False.
Qed.

(** Once [next_range_min] is above [e], the values of a sorted list that
    are not above [e] do nothing in the loop. *)
Lemma range_loop_above rs m e l :
  e < m → StronglySorted Z.le l → Forall (Z.le e) l →
  range_loop (rs, m) l = range_loop (rs, m) (filter (λ x, e < x) l).
Proof.
  intros Hlt Hs. induction Hs as [|x l Hs IH Hall]; intros Hge; [done|].
  apply Forall_cons in Hge as [Hx Hge].
  destruct (decide (e < x)) as [Hgt|Hngt].
  - rewrite filter_all; [done|]. constructor; [done|].
    rewrite Forall_forall in Hall |- *. intros y Hy.
    specialize (Hall y Hy). lia.
  - rewrite filter_cons_False by done.
    unfold range_loop at 1. cbn [foldl].
    rewrite range_step_below by lia. by apply IH.
Qed.

(** The loop over a sorted list depends on the members of the list only. *)
Lemma range_loop_ext (n : nat) l1 l2 st :
  (List.length l1 ≤ n)%nat →
  StronglySorted Z.le l1 → StronglySorted Z.le l2 →
  (∀ x, x ∈ l1 ↔ x ∈ l2) →
  range_loop st l1 = range_loop st l2.
Proof.
  revert l1 l2 st. induction n as [|n IH]; intros l1 l2 st Hlen Hs1 Hs2 Hext.
  - destruct l1; [|simpl in Hlen; lia].
    destruct l2 as [|y l2]; [done|].
    assert (y ∈ []) as ?%elem_of_nil by (apply Hext, list_elem_of_here). done.
  - destruct l1 as [|e1 l1], l2 as [|e2 l2].
    + done.
    + assert (e2 ∈ []) as ?%elem_of_nil by (apply Hext, list_elem_of_here).
      done.
    + assert (e1 ∈ []) as ?%elem_of_nil by (apply Hext, list_elem_of_here).
      done.
    + apply StronglySorted_cons in Hs1 as [Hge1 Hs1].
      apply StronglySorted_cons in Hs2 as [Hge2 Hs2].
      assert (e1 = e2) as <-.
      { pose proof (proj1 (Hext e1) (list_elem_of_here _ _)) as H1.
        pose proof (proj2 (Hext e2) (list_elem_of_here _ _)) as H2.
        rewrite Forall_forall in Hge1, Hge2.
        apply elem_of_cons in H1 as [?|H1]; [done|].
        apply elem_of_cons in H2 as [?|H2]; [done|].
        specialize (Hge1 _ H2). specialize (Hge2 _ H1). lia. }
      unfold range_loop. cbn [foldl].
      change (foldl range_step ?s ?l) with (range_loop s l).
      destruct st as [rs m].
      destruct (range_step (rs, m) e1) as [rs' m'] eqn:Hstep.
      assert (e1 < m') as Hlt.
      { unfold range_step in Hstep. injection Hstep as _ <-. lia. }
      rewrite (range_loop_above rs' m' e1 l1) by done.
      rewrite (range_loop_above rs' m' e1 l2) by done.
      apply IH.
      * pose proof (length_filter (λ x, e1 < x) l1). simpl in Hlen. lia.
      * by apply StronglySorted_filter_le.
      * by apply StronglySorted_filter_le.
      * intros x. rewrite !list_elem_of_filter.
        specialize (Hext x). rewrite !elem_of_cons in Hext.
        split; intros [Hx Hin]; (split; [done|]);
          [destruct (proj1 Hext (or_intror Hin)) | destruct (proj2 Hext (or_intror Hin))];
          (done || lia).
Qed.

(** The range list depends on the preserved descriptors as a set. *)
Lemma fileno_ranges_ext fs1 fs2 :
  (∀ x, x ∈ fs1 ↔ x ∈ fs2) → fileno_ranges fs1 = fileno_ranges fs2.
Proof.
  intros Hext. unfold fileno_ranges.
  rewrite (range_loop_ext (List.length (merge_sort Z.le fs1))
             (merge_sort Z.le fs1) (merge_sort Z.le fs2)); [done|done|..].
  - apply StronglySorted_merge_sort; apply _.
  - apply StronglySorted_merge_sort; apply _.
  - intros x. by rewrite !(merge_sort_Permutation Z.le).
Qed.

(** [next_range_min] ends at a value that the members of the list fix,
    not their order or number. *)
Lemma last_range_min_ext fs1 fs2 :
  (∀ x, x ∈ fs1 ↔ x ∈ fs2) → last_range_min fs1 = last_range_min fs2.
Proof.
  intros Hext.
  destruct (last_range_min_above fs1) as [H01 Hall1].
  destruct (last_range_min_above fs2) as [H02 Hall2].
  rewrite Forall_forall in Hall1, Hall2.
  apply Z.le_antisymm; (apply last_range_min_le; [done|]);
    apply Forall_forall; intros e He.
  - apply Hall2. by apply Hext.
  - apply Hall1. by apply Hext.
Qed.

(** X1. With every preserved descriptor at most 1024, a descriptor is open
    after the fence exactly when it was open before and is negative, or
    1024 or more, or preserved, or just below a preserved descriptor. *)
Theorem close_all_fds_survivors except_fds fs (open : gset Z) fd :
  except_filenos except_fds = Ret fs →
  Forall (λ e, e ≤ bound) fs →
  fd ∈ (close_all_fds except_fds open).2 ↔
  fd ∈ open ∧ (fd < 0 ∨ bound ≤ fd ∨ fd ∈ fs ∨ fd + 1 ∈ fs).
Proof.
  intros Hfs Hall. unfold close_all_fds. rewrite Hfs.
  change (close_each ?rs ?o).2 with (close_ranges rs o).
  rewrite elem_of_close_ranges_Exists, reached_all, fileno_ranges_closes.
  2: { apply (fileno_ranges_fit fs (bound + 1));
         [unfold bound, INT_MAX; lia|].
       eapply Forall_impl; [exact Hall|]. cbn beta. lia. }
  destruct (last_range_min_above fs) as [H0 Habove].
  rewrite Forall_forall in Hall, Habove.
  assert (fd ∉ fs → fd = bound → last_range_min fs ≤ bound) as Htop.
  { intros Hnin ->. apply last_range_min_le; [unfold bound; lia|].
    apply Forall_forall. intros e He. specialize (Hall _ He).
    destruct (decide (e = bound)) as [->|]; [done | lia]. }
  assert (last_range_min fs ≤ bound + 1) as Hle.
  { apply last_range_min_le; [unfold bound; lia|].
    apply Forall_forall. intros e He. specialize (Hall _ He). lia. }
  split; intros [Hopen Hfd]; (split; [done|]).
  - destruct (decide (fd ∈ fs)) as [|Hn]; [tauto|].
    destruct (decide (fd + 1 ∈ fs)) as [|Hn1]; [tauto|].
    destruct (decide (fd < 0)); [tauto|].
    destruct (decide (bound ≤ fd)); [tauto|].
    exfalso. apply Hfd.
    destruct (decide (fd < last_range_min fs)); [left | right; lia].
    split_and!; try lia; done.
  - intros [(Hx & Hn & Hn1)|Hx].
    + destruct Hfd as [?|[?|[?|?]]]; try done; try lia.
      assert (fd = bound) as Heq by lia.
      specialize (Htop Hn Heq). lia.
    + destruct Hfd as [?|[?|[Hin|Hin]]]; try lia.
      * specialize (Habove _ Hin). lia.
      * specialize (Habove _ Hin). simpl in Habove. lia.
Qed.

Lemma close_all_fds_survivors_witness :
  4 ∈ (close_all_fds (Some [FdInt 5]) (list_to_set [0; 3; 4; 5])).2 ↔
  4 ∈ (list_to_set [0; 3; 4; 5] : gset Z) ∧
  (4 < 0 ∨ bound ≤ 4 ∨ 4 ∈ [1; 2; 5] ∨ 4 + 1 ∈ [1; 2; 5]).
Proof.
  apply (close_all_fds_survivors (Some [FdInt 5]) [1; 2; 5]).
  - reflexivity.
  - unfold bound. repeat constructor; lia.
Defined.

(** X2. The fence depends on the preserved descriptors as a set: two
    arguments that stand for the same descriptors, in any order, with any
    repetitions and any [None]s, leave the same descriptor table. *)
Theorem close_all_fds_set except_fds1 except_fds2 fs1 fs2 (open : gset Z) :
  except_filenos except_fds1 = Ret fs1 →
  except_filenos except_fds2 = Ret fs2 →
  (∀ x, x ∈ fs1 ↔ x ∈ fs2) →
  close_all_fds except_fds1 open = close_all_fds except_fds2 open.
Proof.
  intros H1 H2 Hext. unfold close_all_fds. rewrite H1, H2.
  by rewrite (fileno_ranges_ext fs1 fs2 Hext).
Qed.

Lemma close_all_fds_set_witness :
  close_all_fds (Some [FdInt 5; FdFile 7; FdNone]) (list_to_set [0; 3; 5; 9]) =
  close_all_fds (Some [FdFile 7; FdInt 1; FdInt 5; FdInt 5])
    (list_to_set [0; 3; 5; 9]).
Proof.
  apply (close_all_fds_set _ _ [1; 2; 5; 7] [1; 2; 7; 1; 5; 5]);
    [reflexivity | reflexivity |].
  intros x. rewrite !elem_of_cons. tauto.
Defined.

(** X3. The fence only closes: the table after it is a part of the table
    before it, a negative descriptor is never closed, and a second call
    with the same argument changes nothing. *)
Theorem close_all_fds_only_closes except_fds (open : gset Z) :
  (close_all_fds except_fds open).2 ⊆ open ∧
  (∀ fd, fd < 0 → fd ∈ open → fd ∈ (close_all_fds except_fds open).2) ∧
  close_all_fds except_fds (close_all_fds except_fds open).2 =
    close_all_fds except_fds open.
Proof.
  unfold close_all_fds.
  destruct (except_filenos except_fds) as [fs|e]; [|done].
  change (close_each ?rs ?o).2 with (close_ranges rs o).
  split_and!.
  - intros fd. rewrite elem_of_close_ranges. tauto.
  - intros fd Hneg Hopen. apply close_ranges_keeps; [done|].
    rewrite fileno_ranges_closes.
    destruct (last_range_min_above fs) as [H0 _]. lia.
  - apply injective_projections.
    + by rewrite !close_each_outcome.
    + change (close_each ?rs ?o).2 with (close_ranges rs o).
      apply set_eq. intros fd. rewrite !elem_of_close_ranges. tauto.
Qed.

(** The ranges built from [m] on are gaps of the list: each starts at [m]
    or just above a member, is not empty, and ends just below a member;
    the final [next_range_min] is [m] or just above a member. *)
Lemma range_loop_gaps l m :
  Forall (λ r : Z * Z,
            (r.1 = m ∨ (r.1 - 1) ∈ l) ∧ r.1 ≤ r.2 ∧ (r.2 + 1) ∈ l)
    (range_loop ([], m) l).1 ∧
  ((range_loop ([], m) l).2 = m ∨ ((range_loop ([], m) l).2 - 1) ∈ l).
Proof.
  revert m. induction l as [|e l IH]; intros m.
  - simpl. split; [constructor | by left].
  - rewrite range_loop_cons. cbn [fst snd].
    destruct (IH (Z.max m (e + 1))) as [Hall Hfin].
    assert (∀ y, y = Z.max m (e + 1) ∨ (y - 1) ∈ l →
                 y = m ∨ (y - 1) ∈ e :: l) as Hstart.
    { intros y [->|Hin]; [|right; by apply list_elem_of_further].
      destruct (decide (e + 1 ≤ m)); [left; lia | right].
      replace (Z.max m (e + 1) - 1) with e by lia. apply list_elem_of_here. }
    split; [|by apply Hstart].
    apply Forall_app. split.
    + destruct (decide (e > m)); [|constructor].
      constructor; [|constructor]. cbn [fst snd]. split_and!; [by left | lia |].
      replace (e - 1 + 1) with e by lia. apply list_elem_of_here.
    + eapply Forall_impl; [exact Hall|]. cbn beta.
      intros r (Hlo & Hne & Hhi). split_and!; [by apply Hstart | done |].
      by apply list_elem_of_further.
Qed.

Lemma range_loop_length l m :
  (List.length (range_loop ([], m) l).1 ≤ List.length l)%nat.
Proof.
  revert m. induction l as [|e l IH]; intros m; [done|].
  rewrite range_loop_cons. cbn [fst snd]. rewrite length_app.
  specialize (IH (Z.max m (e + 1))).
  destruct (decide (e > m)); simpl; lia.
Qed.

(** X4. The ranges are the gaps between the preserved descriptors: there
    is at most one more range than preserved descriptors; every range
    starts at 0 or just above a preserved descriptor; and every range but
    the one that ends at the bound is not empty and ends just below a
    preserved descriptor. *)
Theorem fileno_ranges_gaps fs :
  (List.length (fileno_ranges fs) ≤ S (List.length fs))%nat ∧
  ∀ r, r ∈ fileno_ranges fs →
       (r.1 = 0 ∨ (r.1 - 1) ∈ fs) ∧
       (r = (last_range_min fs, bound) ∨ (r.1 ≤ r.2 ∧ (r.2 + 1) ∈ fs)).
Proof.
  rewrite fileno_ranges_eq.
  destruct (range_loop_gaps (merge_sort Z.le fs) 0) as [Hall Hfin].
  fold (last_range_min fs) in Hfin.
  split.
  - rewrite length_app. simpl.
    pose proof (range_loop_length (merge_sort Z.le fs) 0) as Hlen.
    rewrite (Permutation_length (merge_sort_Permutation Z.le fs)) in Hlen. lia.
  - intros r [Hr | ->%list_elem_of_singleton]%elem_of_app.
    + rewrite Forall_forall in Hall.
      destruct (Hall r Hr) as (Hlo & Hne & Hhi).
      rewrite !(merge_sort_Permutation Z.le fs) in Hlo, Hhi. tauto.
    + cbn [fst]. rewrite (merge_sort_Permutation Z.le fs) in Hfin.
      split; [done | by left].
Qed.

End FenceBehaviour.

(** * The pipe factory and the fence together *)
Section PipeProperties.
Import Fence Pipe.



End PipeProperties.

(** * More on the fingerprint parser *)
Section FingerprintBehaviour.
Import Fingerprint.
Local Open Scope string_scope.

Lemma lower_char_idem c : lower_char (lower_char c) = lower_char c.
Proof. destruct c as [[] [] [] [] [] [] [] []]; reflexivity. Qed.

(** Lowering a character gives neither [=] nor [:] unless it was one. *)
Lemma lower_char_keeps c :
  (Ascii.eqb c "=" = false → Ascii.eqb (lower_char c) "=" = false) ∧
  (Ascii.eqb c ":" = false → Ascii.eqb (lower_char c) ":" = false).
Proof. destruct c as [[] [] [] [] [] [] [] []]; split; intros H; exact H || reflexivity. Qed.

Lemma lower_idem s : lower (lower s) = lower s.
Proof.
  induction s as [|c s IH]; simpl; [done|].
  by rewrite lower_char_idem, IH.
Qed.

Lemma free_of_lower_eq s : free_of "=" s → free_of "=" (lower s).
Proof.
  induction s as [|c s IH]; simpl; [done|].
  intros [Hc Hs]. split; [by apply lower_char_keeps | by apply IH].
Qed.

Lemma free_of_lower_colon s : free_of ":" s → free_of ":" (lower s).
Proof.
  induction s as [|c s IH]; simpl; [done|].
  intros [Hc Hs]. split; [by apply lower_char_keeps | by apply IH].
Qed.

Lemma free_of_remove_char c s : free_of c (remove_char c s).
Proof.
  induction s as [|d s IH]; simpl; [done|].
  destruct (Ascii.eqb d c) eqn:E; [done|]. simpl. by rewrite E.
Qed.

Lemma free_of_remove_other c d s : free_of c s → free_of c (remove_char d s).
Proof.
  induction s as [|a s IH]; simpl; [done|].
  intros [Ha Hs]. destruct (Ascii.eqb a d); [by apply IH|].
  simpl. split; [done | by apply IH].
Qed.

Lemma free_of_lstrip c s : free_of c s → free_of c (lstrip s).
Proof.
  induction s as [|a s IH]; simpl; [done|].
  intros [Ha Hs]. destruct (is_space a); [by apply IH | done].
Qed.

Lemma free_of_rstrip c s : free_of c s → free_of c (rstrip s).
Proof.
  induction s as [|a s IH]; simpl; [done|].
  intros [Ha Hs]. destruct (is_empty (rstrip s) && is_space a); [done|].
  simpl. split; [done | by apply IH].
Qed.

(** The piece after the last separator has no separator in it. *)
Lemma last_piece_free sep s : free_of sep (last_piece (rsplit1 sep s)).
Proof.
  unfold rsplit1, last_piece.
  assert (match split_at_last sep s with
          | Some (_, after) => free_of sep after
          | None => free_of sep s
          end) as H.
  { induction s as [|c s IH]; simpl; [done|].
    destruct (split_at_last sep s) as [[before after]|]; [done|].
    destruct (Ascii.eqb c sep) eqn:E; [done|]. by split. }
  by destruct (split_at_last sep s) as [[before after]|].
Qed.

Lemma app_sep_nonempty before c after : is_empty (before ++ String c after) = false.
Proof. by destruct before. Qed.

(** X6. For an output [before=body] with whitespace around it, where
    [body] has no [=] and [before=body] neither starts nor ends with
    whitespace, the parser gives [body] without its colons, in lower
    case. *)
Theorem parse_fingerprint_labelled lead before body trail :
  all_space lead → all_space trail →
  free_of "=" body →
  strip (before ++ String "=" body) = before ++ String "=" body →
  parse_fingerprint (lead ++ (before ++ String "=" body) ++ trail) =
    lower (remove_char ":" body).
Proof.
  intros Hlead Htrail Hfree Hstrip. unfold parse_fingerprint.
  rewrite strip_surrounding; [|done|done|].
  - by rewrite Hstrip, last_piece_after_last_sep.
  - destruct (lstrip (before ++ String "=" body)) eqn:E; [|done].
    unfold strip in Hstrip. rewrite E in Hstrip. simpl in Hstrip.
    apply (f_equal is_empty) in Hstrip.
    by rewrite app_sep_nonempty in Hstrip.
Qed.

Lemma parse_fingerprint_labelled_witness :
  parse_fingerprint
    (String "010"%char "" ++ ("MD5 Fingerprint" ++ String "=" "0A:1b:FF") ++ " ") =
  lower (remove_char ":" "0A:1b:FF").
Proof.
  apply (parse_fingerprint_labelled (String "010"%char "") "MD5 Fingerprint"
           "0A:1b:FF" " ").
  - split; [reflexivity | exact I].
  - split; [reflexivity | exact I].
  - vm_compute. tauto.
  - reflexivity.
Defined.

(** X7. An output without [=] is taken whole: it is stripped, its colons
    are removed and it is lowercased. An output of whitespace only, the
    empty one among them, gives the empty string. *)
Theorem parse_fingerprint_unlabelled s :
  (free_of "=" s → parse_fingerprint s = lower (remove_char ":" (strip s))) ∧
  (all_space s → parse_fingerprint s = "").
Proof.
  assert (free_of "=" s →
          parse_fingerprint s = lower (remove_char ":" (strip s))) as Hwhole.
  { intros Hfree. unfold parse_fingerprint, rsplit1.
    rewrite split_at_last_free; [done|].
    unfold strip. by apply free_of_rstrip, free_of_lstrip. }
  split; [done|].
  intros Hspace.
  assert (lstrip s = "") as Hl.
  { clear Hwhole. induction s as [|c s IH]; simpl; [done|].
    destruct Hspace as [-> Hspace]. by apply IH. }
  unfold parse_fingerprint, strip. by rewrite Hl.
Qed.

(** X8. Whatever the external tool writes, the fingerprint returned has
    no [:] and no [=] in it and is in lower case. *)
Theorem parse_fingerprint_shape s :
  free_of ":" (parse_fingerprint s) ∧
  free_of "=" (parse_fingerprint s) ∧
  lower (parse_fingerprint s) = parse_fingerprint s.
Proof.
  unfold parse_fingerprint. split_and!.
  - apply free_of_lower_colon, free_of_remove_char.
  - apply free_of_lower_eq, free_of_remove_other, last_piece_free.
  - apply lower_idem.
Qed.

End FingerprintBehaviour.

(** * More on the reaper *)
Section ReaperBehaviour.
Import Reaper.
Context {os_state : Type} `{!OS os_state}.
Implicit Types (pid status : Z) (w : world os_state).



(** X10. [check_and_waitpid] starts no thread; an [OSError] that leaves it
    is one that [os.kill] raised, with an [errno] other than [ESRCH], and
    never one of the wait; and when the probe answers [False] it returns
    without a wait. *)
Theorem check_and_waitpid_contained pid status w :
  started (check_and_waitpid pid status w).2 = started w ∧
  (∀ errno, (check_and_waitpid pid status w).1 = Raise (OSError errno) →
     (os_kill pid 0 (os w)).1 = Raise (OSError errno) ∧ errno ≠ ESRCH) ∧
  (∀ w1, pid_exists pid w = (Ret false, w1) →
     check_and_waitpid pid status w = (Ret tt, w1) ∧
     os w1 = (os_kill pid 0 (os w)).2).
Proof.
  unfold check_and_waitpid, pid_exists, try_except, bind, kill, waitpid,
    ret, raise.
  destruct (os_kill pid 0 (os w)) as [[[]|[msg|n|]] s]; cbn [fst snd os].
  2, 4: split_and!; [done | intros errno [=] | intros w1 [=]].
  - destruct (os_waitpid pid status s) as [[r|[msg|n|]] s']; cbn [fst snd started].
    all: split_and!; [done | intros errno [=] | intros w1 [=]].
  - destruct (decide (n = ESRCH)) as [->|Hne]; cbn [fst snd started].
    + split_and!; [done | intros errno [=] |].
      intros w1 [= <-]. done.
    + split_and!; [done | | intros w1 [=]].
      intros errno [= <-]. done.
Qed.

End ReaperBehaviour.

(** * More on the worker wrapper *)
Section WorkerBehaviour.
Import Worker.
Context {kwargs : Type}.
Implicit Types (func : callable kwargs) (kw : kwargs) (e : py_exception).

(** X11. How the wrapper ends, case by case. It calls [os._exit] exactly
    when the unit of work completes or raises a [KeyboardInterrupt], and
    then with status 0 and nothing written. It returns exactly when the
    unit of work raises an [Exception] that is not a [KeyboardInterrupt]
    and [str()] of the name and of the exception give strings; exactly
    then is the line that names the unit of work written. An exception
    leaves it exactly when the unit of work raised it and it is neither of
    the two kinds, or when it is raised by [str()] of the name, or by
    [str()] of the exception after [str()] of the name gave a string, in
    the handler of an [Exception]. The traceback is written in every
    case of an [Exception] that is not a [KeyboardInterrupt]. *)
Theorem process_wrapper_ends func kw :
  (∀ status, (process_wrapper func kw).2 = OsExit status ↔
     status = 0 ∧
     (call func kw = Completes ∨
      ∃ e, call func kw = Raises e ∧ is_KeyboardInterrupt e = true)) ∧
  (∀ status, (process_wrapper func kw).2 = OsExit status →
     (process_wrapper func kw).1 = []) ∧
  ((process_wrapper func kw).2 = Returns ↔
     ∃ e str_name str_e,
       call func kw = Raises e ∧
       is_KeyboardInterrupt e = false ∧ is_Exception e = true ∧
       getattr_name func = Str str_name ∧ exc_str e = Str str_e) ∧
  (∀ raised, (process_wrapper func kw).2 = Propagates raised ↔
     (call func kw = Raises raised ∧
      is_KeyboardInterrupt raised = false ∧ is_Exception raised = false) ∨
     (∃ e, call func kw = Raises e ∧
           is_KeyboardInterrupt e = false ∧ is_Exception e = true ∧
           (getattr_name func = StrRaises raised ∨
            ∃ str_name, getattr_name func = Str str_name ∧
                        exc_str e = StrRaises raised))) ∧
  ((∃ msg, PrintLine msg ∈ (process_wrapper func kw).1) ↔
     (process_wrapper func kw).2 = Returns) ∧
  ((process_wrapper func kw).1 ≠ [] ↔
     ∃ e, call func kw = Raises e ∧
          is_KeyboardInterrupt e = false ∧ is_Exception e = true ∧
          Traceback e ∈ (process_wrapper func kw).1).
Proof.
  assert (∀ msg, PrintLine msg ∉ ([] : list stderr_event)) as Hnil
    by (intros msg; apply not_elem_of_nil).
  assert (∀ msg e, PrintLine msg ∉ [Traceback e]) as Hone.
  { intros msg e [?|?%elem_of_nil]%elem_of_cons; done. }
  unfold process_wrapper, try_call.
  destruct (call func kw) as [|e]; cbn [fst snd];
    [|destruct (is_KeyboardInterrupt e) eqn:Hki; cbn [fst snd];
      [|destruct (is_Exception e) eqn:Hexc; cbn [fst snd];
        [destruct (getattr_name func) as [str_name|raised_name] eqn:Hname;
         cbn [fst snd];
         [destruct (exc_str e) as [str_e|raised_str] eqn:Hstr; cbn [fst snd]|]|]]].
  all: split_and!; intros; try split; intros.
  all: repeat match goal with
         | H : _ ∧ _ |- _ => destruct H
         | H : _ ∨ _ |- _ => destruct H
         | H : ∃ _, _ |- _ => destruct H
         | H : PrintLine _ ∈ [] |- _ => by apply Hnil in H
         | H : PrintLine _ ∈ [Traceback _] |- _ => by apply Hone in H
         end.
  all: simplify_eq; try done; try congruence.
  all: try (right; exists e; split_and!; [done..|]; right; by eexists).
  all: eauto 8 using list_elem_of_here, list_elem_of_further.
Qed.

(** What the wrapper does with the [Exception] whose [str()] raises: it
    writes the traceback, not the line, and lets the
    [UnicodeEncodeError] through. *)
Example process_wrapper_unprintable :
  process_wrapper unprintable_work tt =
    ([Traceback unprintable], Propagates encode_error).
Proof. reflexivity. Qed.

End WorkerBehaviour.

(** * Properties of the methods of [EucaCommand] *)
Section EucaCommandProperties.
Import Fingerprint EucaCommand.
Local Open Scope string_scope.

Lemma truthy_Some v : truthy v = true → ∃ s, v = Some s ∧ s ≠ "".
Proof.
  destruct v as [s|]; [|done]. destruct s; [done|].
  intros _. eexists. split; [done | discriminate].
Qed.

(** X12. [get_environ] returns a value exactly when the variable is in
    the table with a string that is not empty, and then it prints nothing
    and returns that string; in every other case (no entry, [None], the
    empty string) it prints that the variable was not found and exits
    with status 1. *)
Theorem get_environ_found environ name :
  (∀ v, (get_environ environ name).2 = Done v ↔
          environ !! name = Some v ∧ ∃ s, v = Some s ∧ s ≠ "") ∧
  (∀ v, (get_environ environ name).2 = Done v →
          (get_environ environ name).1 = []) ∧
  ((∀ v, (get_environ environ name).2 ≠ Done v) →
     get_environ environ name =
       (["Environment variable: " ++ name ++ " not found"], SysExit 1)).
Proof.
  unfold get_environ, display_error_and_exit.
  destruct (environ !! name) as [value|]; cbn [fst snd].
  - destruct (truthy value) eqn:Ht; cbn [fst snd].
    + split_and!.
      * intros v. split.
        -- intros [= <-]. split; [done | by apply truthy_Some].
        -- intros [[= <-] _]. done.
      * done.
      * intros H. by destruct (H value).
    + split_and!; [|done..].
      intros v. split; [done|].
      intros [[= <-] (s & -> & Hs)]. by destruct s.
  - split_and!; [|done..].
    intros v. split; [done | intros [? _]; done].
Qed.

(** X13. When [get_credentials] returns, it has printed nothing, and the
    two credentials of the mode are set to strings that are not empty:
    the certificate and the private key with [is_euca], the access key
    and the secret key without. The mode and the environment table are
    as they were. *)
Theorem get_credentials_post self printed self' :
  get_credentials self = (printed, Done tt, self') →
  printed = [] ∧ is_euca self' = is_euca self ∧ environ self' = environ self ∧
  if is_euca self
  then truthy (euca_cert_path self') = true ∧
       truthy (euca_private_key_path self') = true
  else truthy (ec2_user_access_key self') = true ∧
       truthy (ec2_user_secret_key self') = true.
Proof.
  destruct self as [euca cert key access secret env].
  unfold get_credentials, and_then, require_field. cbn.
  intros H.
  destruct euca; repeat case_match; simplify_eq/=; done.
Qed.

Lemma get_credentials_post_witness :
  ([] : list string) = [] ∧
  is_euca (set_ec2_user_secret_key (Some "s3cr3t") demo_command) =
    is_euca demo_command ∧
  environ (set_ec2_user_secret_key (Some "s3cr3t") demo_command) =
    environ demo_command ∧
  if is_euca demo_command
  then truthy (euca_cert_path
                 (set_ec2_user_secret_key (Some "s3cr3t") demo_command)) = true ∧
       truthy (euca_private_key_path
                 (set_ec2_user_secret_key (Some "s3cr3t") demo_command)) = true
  else truthy (ec2_user_access_key
                 (set_ec2_user_secret_key (Some "s3cr3t") demo_command)) = true ∧
       truthy (ec2_user_secret_key
                 (set_ec2_user_secret_key (Some "s3cr3t") demo_command)) = true.
Proof.
  apply (get_credentials_post demo_command []
           (set_ec2_user_secret_key (Some "s3cr3t") demo_command)).
  vm_compute. reflexivity.
Defined.

(** X14. [get_credentials] never replaces a credential that is set: a
    field that holds a string that is not empty before the call holds the
    same string after it, however the call ends and whatever the
    environment table says. *)
Theorem get_credentials_keeps self :
  (truthy (euca_cert_path self) = true →
     euca_cert_path (get_credentials self).2 = euca_cert_path self) ∧
  (truthy (euca_private_key_path self) = true →
     euca_private_key_path (get_credentials self).2 =
       euca_private_key_path self) ∧
  (truthy (ec2_user_access_key self) = true →
     ec2_user_access_key (get_credentials self).2 = ec2_user_access_key self) ∧
  (truthy (ec2_user_secret_key self) = true →
     ec2_user_secret_key (get_credentials self).2 = ec2_user_secret_key self).
Proof.
  destruct self as [euca cert key access secret env].
  unfold get_credentials, and_then, require_field. cbn.
  split_and!; intros H; destruct euca;
    repeat case_match; simplify_eq/=; congruence.
Qed.

(** X15. [get_credentials] fails in two ways only. It raises
    [ConnectionFailed] after one line that names the variable whose value
    is missing; it raises [KeyError] when the environment table has no
    entry for a variable it needs, and then prints nothing. It never
    exits. *)
Theorem get_credentials_failures self :
  ((get_credentials self).1.2 = Raised ConnectionFailed →
     ∃ msg, (get_credentials self).1.1 = [msg] ∧
            msg ∈ ["EUCA_CERT variable must be set.";
                   "EUCA_PRIVATE_KEY variable must be set.";
                   "EC2_ACCESS_KEY environment variable must be set.";
                   "EC2_SECRET_KEY environment variable must be set."]) ∧
  (∀ key, (get_credentials self).1.2 = Raised (KeyError key) →
     environ self !! key = None ∧ (get_credentials self).1.1 = []) ∧
  (∀ status, (get_credentials self).1.2 ≠ SysExit status).
Proof.
  destruct self as [euca cert key access secret env].
  unfold get_credentials, and_then, require_field. cbn.
  split_and!.
  - intros H. destruct euca; repeat case_match; simplify_eq/=;
      eexists; (split; [reflexivity|]);
      repeat first [apply list_elem_of_here | apply list_elem_of_further].
  - intros k H. destruct euca; repeat case_match; simplify_eq/=; done.
  - intros status H. destruct euca; repeat case_match; simplify_eq/=.
Qed.

(** *** The [--filter] option *)

Lemma split_free sep s : free_of sep s → split sep s = [s].
Proof.
  induction s as [|c s IH]; simpl; [done|].
  intros [-> Hs]. by rewrite IH.
Qed.

Lemma split_nonnil sep s : split sep s ≠ [].
Proof.
  destruct s as [|c s]; simpl; [done|].
  destruct (Ascii.eqb c sep); [done|]. by destruct (split sep s).
Qed.

Lemma split_one sep s piece : split sep s = [piece] → piece = s ∧ free_of sep s.
Proof.
  revert piece. induction s as [|c s IH]; intros piece; simpl.
  - by intros [= <-].
  - destruct (Ascii.eqb c sep) eqn:E.
    + intros [= _ H]. by apply split_nonnil in H.
    + pose proof (split_nonnil sep s) as Hne.
      destruct (split sep s) as [|p ps]; [done|].
      intros [= <- ->]. by destruct (IH p eq_refl) as [-> ?].
Qed.

Lemma split_two sep s a b :
  split sep s = [a; b] ↔ s = a ++ String sep b ∧ free_of sep a ∧ free_of sep b.
Proof.
  split.
  - revert a. induction s as [|c s IH]; intros a; simpl; [done|].
    destruct (Ascii.eqb c sep) eqn:E.
    + intros [= <- H]. apply Ascii.eqb_eq in E as ->.
      by destruct (split_one sep s b H) as [-> ?].
    + destruct (split sep s) as [|p ps]; [done|].
      intros [= <- ->]. destruct (IH p eq_refl) as (-> & Hp & Hb). done.
  - intros (-> & Ha & Hb). induction a as [|c a IH]; simpl.
    + by rewrite Ascii.eqb_refl, split_free.
    + destruct Ha as [-> Ha]. by rewrite IH.
Qed.

(** X16. A filter is taken exactly when it has one [=] in it: the text
    before it is the name and the text after it the value, and the entry
    of that name is set to that value. A filter with no [=] or with more
    than one makes the program print that filters must be of the form
    name=value and exit with status 1. *)
Theorem add_filter_accepts value filters :
  (∀ filters', add_filter value filters = ([], Done filters') ↔
     ∃ name v, value = name ++ String "=" v ∧
               free_of "=" name ∧ free_of "=" v ∧
               filters' = <[name := v]> filters) ∧
  ((∀ filters', add_filter value filters ≠ ([], Done filters')) →
     add_filter value filters =
       (["Filters must be of the form name=value"], SysExit 1)).
Proof.
  unfold add_filter, display_error_and_exit.
  destruct (split "=" value) as [|name [|v [|x rest]]] eqn:E.
  - split; [|done]. intros filters'. split; [done|].
    intros (n & v & Hsplit & Hn & Hv & _).
    assert (split "=" value = [n; v]) as H by (by apply split_two).
    congruence.
  - split; [|done]. intros filters'. split; [done|].
    intros (n & v' & Hsplit & Hn & Hv & _).
    assert (split "=" value = [n; v']) as H by (by apply split_two).
    congruence.
  - apply split_two in E as (Hval & Hn & Hv). split.
    + intros filters'. split.
      * intros [= <-]. by exists name, v.
      * intros (n & v' & Hsplit & Hn' & Hv' & ->).
        assert (split "=" value = [n; v']) as H by (by apply split_two).
        assert (split "=" value = [name; v]) as H' by (by apply split_two).
        rewrite H in H'. by injection H' as -> ->.
    + intros H. by destruct (H (<[name := v]> filters)).
  - split; [|done]. intros filters'. split; [done|].
    intros (n & v' & Hsplit & Hn & Hv & _).
    assert (split "=" value = [n; v']) as H by (by apply split_two).
    congruence.
Qed.

(** *** File names *)

Lemma split_at_last_app sep before after :
  free_of sep after →
  split_at_last sep (before ++ String sep after) = Some (before, after).
Proof.
  intros Hfree. induction before as [|c before IH]; simpl.
  - by rewrite split_at_last_free, Ascii.eqb_refl.
  - by rewrite IH.
Qed.

Lemma path_split_tail p : (path_split p).2 = last_piece (rsplit1 "/" p).
Proof.
  unfold path_split, rsplit1, last_piece.
  by destruct (split_at_last "/" p) as [[before after]|].
Qed.

Lemma rstrip_char_idem c s : rstrip_char c (rstrip_char c s) = rstrip_char c s.
Proof.
  induction s as [|d s IH]; simpl; [done|].
  destruct (is_empty (rstrip_char c s) && Ascii.eqb d c) eqn:E; [done|].
  simpl. by rewrite IH, E.
Qed.

Lemma rstrip_char_app c s : rstrip_char c (s ++ String c "") = rstrip_char c s.
Proof.
  induction s as [|d s IH]; simpl.
  - by rewrite Ascii.eqb_refl.
  - by rewrite IH.
Qed.

Lemma all_char_app c s : all_char c (s ++ String c "") = all_char c s.
Proof.
  induction s as [|d s IH]; simpl.
  - by rewrite Ascii.eqb_refl.
  - by rewrite IH.
Qed.

Lemma all_char_rstrip c s : all_char c s = true → rstrip_char c s = "".
Proof.
  induction s as [|d s IH]; simpl; [done|].
  intros [-> Hs]%andb_true_iff. by rewrite IH.
Qed.

Lemma length_zero_empty s : (String.length s =? 0)%nat = is_empty s.
Proof. by destruct s. Qed.

(** X17. The directory that [get_file_path] gives is never empty, and it
    either is made of slashes only or does not end in a slash; the name
    that [get_relative_filename] gives has no slash in it. For a file
    name without a slash they are [.] and the file name itself. *)
Theorem get_file_path_shape filename :
  get_file_path filename ≠ "" ∧
  (all_char "/" (get_file_path filename) = true ∨
   rstrip_char "/" (get_file_path filename) = get_file_path filename) ∧
  free_of "/" (get_relative_filename filename) ∧
  (free_of "/" filename →
     get_file_path filename = "." ∧ get_relative_filename filename = filename).
Proof.
  split_and!.
  - unfold get_file_path. rewrite length_zero_empty.
    by destruct (path_dirname filename).
  - unfold get_file_path. rewrite length_zero_empty.
    destruct (is_empty (path_dirname filename)) eqn:E; [by right|].
    unfold path_dirname, path_split in *.
    destruct (split_at_last "/" filename) as [[before after]|];
      cbn [fst snd] in *; [|done].
    destruct (is_empty (before ++ "/")) eqn:E1; cbn [negb andb] in *.
    { rewrite E1 in E. done. }
    destruct (all_char "/" (before ++ "/")) eqn:E2; cbn [negb] in *.
    + by left.
    + right. apply rstrip_char_idem.
  - unfold get_relative_filename. rewrite path_split_tail.
    apply last_piece_free.
  - intros Hfree.
    unfold get_file_path, get_relative_filename, path_dirname, path_split.
    by rewrite split_at_last_free.
Qed.

(** X18. A path made of a directory, a slash and a name is taken apart
    into the two: when the directory is not empty and does not end in a
    slash and the name has no slash, [get_file_path] gives the directory
    and [get_relative_filename] the name. *)
Theorem get_file_path_join dir name :
  dir ≠ "" → rstrip_char "/" dir = dir → free_of "/" name →
  get_file_path (dir ++ String "/" name) = dir ∧
  get_relative_filename (dir ++ String "/" name) = name.
Proof.
  intros Hdir Hstrip Hfree.
  assert (all_char "/" dir = false) as Hall.
  { destruct (all_char "/" dir) eqn:E; [|done].
    apply all_char_rstrip in E. congruence. }
  unfold get_file_path, get_relative_filename, path_dirname, path_split.
  rewrite split_at_last_app by done. cbn [fst snd].
  rewrite all_char_app, Hall, rstrip_char_app, Hstrip.
  assert (is_empty (dir ++ "/") = false) as -> by (by destruct dir).
  cbn [negb andb]. rewrite length_zero_empty.
  by destruct dir.
Qed.

Lemma get_file_path_join_witness :
  get_file_path ("/var/tmp" ++ String "/" "image.img") = "/var/tmp" ∧
  get_relative_filename ("/var/tmp" ++ String "/" "image.img") = "image.img".
Proof.
  apply (get_file_path_join "/var/tmp" "image.img").
  - discriminate.
  - reflexivity.
  - vm_compute. tauto.
Defined.

End EucaCommandProperties.
